(** * Linear bleedthrough correction (cytoflow/operations/bleedthrough_linear.py)

    A shallow embedding of [BleedthroughLinearOp.estimate] and
    [BleedthroughLinearOp.apply], and the properties of the two
    operations that the specification states.

    Conventions.
    - Python [float]s are kept abstract: the development is parametric in
      a type [F] with the arithmetic and the numpy primitives the code
      calls (class [Numeric]).  No algebraic law is assumed unless a
      theorem lists it as a hypothesis, so structural results hold for
      IEEE doubles as well as for exact arithmetic.
    - Python [dict]s and [set]s are finite maps and sets; the order in
      which the interpreter iterates over them is an arbitrary
      enumeration without repetition (class [PyOrder]).
    - A call either returns, raises [CytoflowOpError], or raises some
      other Python exception ([outcome]). *)

From Stdlib Require Import QArith Qreduction Qround.
From stdpp Require Import gmap strings list fin_maps sorting.

Close Scope Q_scope.

Abbreviation channel := string (only parsing).
Abbreviation File := string (only parsing).

(** ** Outcomes of a call *)

(** The messages of the [CytoflowOpError]s raised by the module. *)
Inductive CytoflowOpError :=
  | NoExperiment                                   (* "No experiment specified" *)
  | TooFewChannels                                 (* "Need at least two channels ..." *)
  | ControlFileNotFound (f : File) (c : channel)   (* "Can't find file {0} for channel {1}." *)
  | SpilloverNotSet                                (* "Spillover matrix isn't set. ..." *)
  | ChannelNotFound (c : channel)                  (* "Can't find channel {0} in experiment" *)
  | MirrorKeyMissing.                              (* "Must have both (from, to) and (to, from) ..." *)

(** Exceptions that are not [CytoflowOpError]: failed subscripts and the
    errors of the numeric library. *)
Inductive PyException :=
  | KeyError_pair (from_channel to_channel : channel)  (* self.spillover[(a, b)] *)
  | KeyError_channel (c : channel)                     (* d[c] on a dict or a frame *)
  | TypeError (msg : string)                           (* an operand of the wrong type *)
  | NumpyError (fn : string).                          (* raised inside the numpy function fn *)

Inductive outcome (A : Type) :=
  | Ok (a : A)
  | OpFail (e : CytoflowOpError)
  | PyFail (e : PyException).
Arguments Ok {A} a.
Arguments OpFail {A} e.
Arguments PyFail {A} e.

Global Instance outcome_ret : MRet outcome := @Ok.
Global Instance outcome_bind : MBind outcome := λ A B f m,
  match m with
  | Ok a => f a
  | OpFail e => OpFail e
  | PyFail e => PyFail e
  end.

Global Instance outcome_fmap : FMap outcome := λ A B f m,
  match m with
  | Ok a => Ok (f a)
  | OpFail e => OpFail e
  | PyFail e => PyFail e
  end.

(** [for x in xs: body(x)] where the body returns nothing. *)
Fixpoint for_each {A} (body : A → outcome unit) (xs : list A) : outcome unit :=
  match xs with
  | [] => Ok ()
  | x :: xs' => _ ← body x; for_each body xs'
  end.

(** [for x in xs: s = body(x, s)], the loop threading a value. *)
Fixpoint for_fold {A S} (body : A → S → outcome S) (xs : list A) (s : S) : outcome S :=
  match xs with
  | [] => Ok s
  | x :: xs' => s' ← body x s; for_fold body xs' s'
  end.

(** [for x in xs: body(x)] where the body updates a state that outlives
    an exception: the state at the point of failure is kept. *)
Fixpoint loop {A S} (body : A → S → outcome unit * S) (xs : list A) (s : S)
    : outcome unit * S :=
  match xs with
  | [] => (Ok (), s)
  | x :: xs' =>
      match body x s with
      | (Ok _, s') => loop body xs' s'
      | failure => failure
      end
  end.

Definition void {A} (o : outcome A) : outcome unit := _ ← o; Ok ().

Definition is_Ok {A} (o : outcome A) : Prop := ∃ a, o = Ok a.
Definition is_OpFail {A} (o : outcome A) : Prop := ∃ e, o = OpFail e.
Definition is_PyFail {A} (o : outcome A) : Prop := ∃ e, o = PyFail e.

(** Two calls end alike: both return, with related results, or both
    raise the same exception. *)
Definition outcome_rel {A B} (R : A → B → Prop) (o : outcome A) (o' : outcome B) : Prop :=
  match o, o' with
  | Ok a, Ok b => R a b
  | OpFail e, OpFail e' => e = e'
  | PyFail e, PyFail e' => e = e'
  | _, _ => False
  end.

(** ** Numbers and the numeric library *)

(** Arithmetic on floats and the numpy functions used by the module.
    [flt x y] is [x < y]; [np_polyfit1 xs ys] is
    [np.polyfit(xs, ys, deg = 1)], a pair (slope, intercept), or [None]
    when numpy raises; [np_pinv a] is [np.linalg.pinv(a)], or [None]
    when it raises [LinAlgError] (the decomposition does not converge). *)
Class Numeric (F : Type) := {
  fzero : F;
  fone : F;
  fadd : F → F → F;
  fsub : F → F → F;
  fmul : F → F → F;
  flt : F → F → bool;
  lit_1_05 : F;
  lit_0_95 : F;
  np_min : list F → F;
  np_max : list F → F;
  np_polyfit1 : list F → list F → option (F * F);
  np_pinv : list (list F) → option (list (list F))
}.

(** ** Iteration order of dicts and sets *)

Record enumeration (K : Type) `{Countable K} := {
  enum_list :> gset K → list K;
  enum_NoDup : ∀ X, NoDup (enum_list X);
  enum_elem : ∀ X x, x ∈ enum_list X ↔ x ∈ X
}.
Arguments enum_list {K _ _} e X.
Arguments enum_NoDup {K _ _} e X.
Arguments enum_elem {K _ _} e X x.

(** [spillover_iter]: [for k in self.spillover];
    [set_iter]: [list(set(...))];
    [controls_iter]: [self.controls.keys()]. *)
Class PyOrder := {
  spillover_iter : enumeration (channel * channel);
  set_iter : enumeration channel;
  controls_iter : enumeration channel
}.

(** ** Data model *)

Section Model.
Context {F : Type} `{!Numeric F} `{!PyOrder}.

(** A pandas frame: the column labels and the rows (events), each row
    giving a value per column. *)
Record DataFrame := {
  columns : gset channel;
  rows : list (gmap channel F)
}.

(** Values kept in a channel's metadata dict. *)
Inductive MetaValue :=
  | MFloat (x : F)
  | MSpill (d : gmap channel F)
  | MOther (s : string).

Record Experiment := {
  data : DataFrame;
  metadata : gmap channel (gmap string MetaValue)
}.

Record BleedthroughLinearOp := {
  name : string;
  controls : gmap channel File;
  spillover : gmap (channel * channel) F
}.

(** Every row has a value for every column, and for nothing else. *)
Definition frame_wf (d : DataFrame) : Prop :=
  Forall (λ r, dom r = columns d) (rows d).

(** [d[c]], a column. *)
Definition cell (c : channel) (r : gmap channel F) : F := default fzero (r !! c).

Definition get_column (d : DataFrame) (c : channel) : outcome (list F) :=
  if decide (c ∈ columns d) then Ok (cell c <$> rows d)
  else PyFail (KeyError_channel c).

(** [self.spillover[(a, b)]]. *)
Definition spill_get (sp : gmap (channel * channel) F) (a b : channel) : outcome F :=
  match sp !! (a, b) with
  | Some v => Ok v
  | None => PyFail (KeyError_pair a b)
  end.

(** ** apply *)

(** Body of the validation loop, lines 161-171. *)
Definition check_key (e : Experiment) (sp : gmap (channel * channel) F)
    (k : channel * channel) : outcome unit :=
  let '(from_channel, to_channel) := k in
  if decide (from_channel ∉ columns (data e)) then OpFail (ChannelNotFound from_channel)
  else if decide (to_channel ∉ columns (data e)) then OpFail (ChannelNotFound to_channel)
  else if decide ((to_channel, from_channel) ∉ dom sp) then OpFail MirrorKeyMissing
  else Ok ().

(** [list(set([x for (x, _) in self.spillover.keys()]))] *)
Definition channel_set (sp : gmap (channel * channel) F) : gset channel :=
  set_map fst (dom sp).

Definition channels_of (sp : gmap (channel * channel) F) : list channel :=
  set_iter (channel_set sp).

(** [[ [self.spillover[(y, x)] if x != y else 1.0 for x in channels]
       for y in channels]] *)
Definition matrix_row (sp : gmap (channel * channel) F) (channels : list channel)
    (y : channel) : outcome (list F) :=
  mapM (λ x, if decide (x ≠ y) then spill_get sp y x else Ok fone) channels.

Definition mixing_matrix (sp : gmap (channel * channel) F) (channels : list channel)
    : outcome (list (list F)) :=
  mapM (matrix_row sp channels) channels.

(** [np.dot(X, P)] row by row: entry j of [v . P] is the sum over k of
    [v[k] * P[k][j]].  [P] is the square matrix returned by [np_pinv], with as many
    rows and columns as [v] has entries. *)
Definition column (j : nat) (P : list (list F)) : list F :=
  (λ r, nth j r fzero) <$> P.

Definition inner (v w : list F) : F :=
  foldr fadd fzero (zip_with fmul v w).

Definition dot_row (v : list F) (P : list (list F)) : list F :=
  (λ j, inner v (column j P)) <$> seq 0 (length v).

(** [experiment.data[channels]], one row. *)
Definition select (channels : list channel) (r : gmap channel F) : list F :=
  (λ c, cell c r) <$> channels.

(** [new_experiment.data[channels] = values], one row. *)
Definition assign (channels : list channel) (vals : list F) (r : gmap channel F)
    : gmap channel F :=
  foldr (λ cv acc, <[cv.1 := cv.2]> acc) r (zip channels vals).

Definition correct_row (channels : list channel) (a_inv : list (list F))
    (r : gmap channel F) : gmap channel F :=
  assign channels (dot_row (select channels r) a_inv) r.

(** The channels are columns of the frame when the assignment is reached,
    so the column labels stay as they are. *)
Definition correct_frame (channels : list channel) (a_inv : list (list F))
    (d : DataFrame) : DataFrame :=
  {| columns := columns d; rows := correct_row channels a_inv <$> rows d |}.

(** [{x : self.spillover[(x, channel)] for x in channels if x != channel}] *)
Fixpoint bleedthrough_dict (sp : gmap (channel * channel) F) (c : channel)
    (xs : list channel) : outcome (gmap channel F) :=
  match xs with
  | [] => Ok ∅
  | x :: xs' =>
      if decide (x ≠ c) then
        v ← spill_get sp x c;
        d ← bleedthrough_dict sp c xs';
        Ok (<[x := v]> d)
      else bleedthrough_dict sp c xs'
  end.

Definition label : string := "linear_bleedthrough".

(** Body of the metadata loop, lines 187-191: the right-hand side is
    evaluated first, then [new_experiment.metadata[channel]] is looked up
    and its ['linear_bleedthrough'] entry set. *)
Definition set_bleedthrough (sp : gmap (channel * channel) F) (channels : list channel)
    (c : channel) (md : gmap channel (gmap string MetaValue))
    : outcome (gmap channel (gmap string MetaValue)) :=
  d ← bleedthrough_dict sp c channels;
  match md !! c with
  | Some m => Ok (<[c := <[label := MSpill d]> m]> md)
  | None => PyFail (KeyError_channel c)
  end.

(** Lines 157-171. *)
Definition validate (sp : gmap (channel * channel) F) (e : Experiment) : outcome unit :=
  if decide (sp = ∅) then OpFail SpilloverNotSet
  else for_each (check_key e sp) (spillover_iter (dom sp)).

(** Line 183: [np.linalg.pinv(a)] returns or raises. *)
Definition linalg_pinv (a : list (list F)) : outcome (list (list F)) :=
  match np_pinv a with
  | Some a_inv => Ok a_inv
  | None => PyFail (NumpyError "linalg.pinv")
  end.

(** [BleedthroughLinearOp.apply]; [None] is a missing experiment.
    [experiment.clone()] yields an experiment with the same frame and
    metadata; on values it is the identity (the store-level model below
    accounts for the copy). *)
Definition apply (self : BleedthroughLinearOp) (experiment : option Experiment)
    : outcome Experiment :=
  match experiment with
  | None => OpFail NoExperiment
  | Some e =>
      let sp := spillover self in
      _ ← validate sp e;
      let new_experiment := e in
      let channels := channels_of sp in
      a ← mixing_matrix sp channels;
      a_inv ← linalg_pinv a;
      let new_data := correct_frame channels a_inv (data e) in
      md ← for_fold (set_bleedthrough sp channels) channels (metadata new_experiment);
      Ok {| data := new_data; metadata := md |}
  end.

(** ** Vocabulary for the statements about apply *)

(** Entry (i, j) of a matrix given as a list of rows. *)
Definition entry (M : list (list F)) (i j : nat) : option F := M !! i ≫= (.!! j).

(** The n x n identity matrix. *)
Definition identity (n : nat) : list (list F) :=
  (λ i, (λ j, if decide (i = j) then fone else fzero) <$> seq 0 n) <$> seq 0 n.

(** The vector of length n, indexed from s, that is 1.0 at index j. *)
Definition unit_vector (s n j : nat) : list F :=
  (λ i, if decide (i = j) then fone else fzero) <$> seq s n.

(** What the table must satisfy for [apply] to go through, beyond the
    checks of the validation loop: a coefficient for every ordered pair of
    distinct channels, and a metadata dict for every channel. *)
Definition complete (sp : gmap (channel * channel) F) : Prop :=
  set_Forall (λ y, set_Forall (λ x, x ≠ y → (y, x) ∈ dom sp) (channel_set sp))
    (channel_set sp).

Definition has_metadata (sp : gmap (channel * channel) F) (e : Experiment) : Prop :=
  set_Forall (λ c, is_Some (metadata e !! c)) (channel_set sp).

(** [np.linalg.pinv] returns for the mixing matrix of the table. *)
Definition pinv_returns (sp : gmap (channel * channel) F) : Prop :=
  ∃ M, mixing_matrix sp (channels_of sp) = Ok M ∧ is_Some (np_pinv M).

Global Instance complete_dec sp : Decision (complete sp).
Proof. unfold complete. apply _. Defined.

Global Instance has_metadata_dec sp e : Decision (has_metadata sp e).
Proof. unfold has_metadata. apply _. Defined.

(** Every key has its mirror. *)
Definition mirrored (sp : gmap (channel * channel) F) : Prop :=
  set_Forall (λ k, (k.2, k.1) ∈ dom sp) (dom sp).

(** All coefficients between distinct channels are zero. *)
Definition zero_off_diagonal (sp : gmap (channel * channel) F) : Prop :=
  map_Forall (λ k v, k.1 ≠ k.2 → v = fzero) sp.


(** Every channel with a key (c, c) is also the source of a key to another
    channel: dropping the diagonal keys then leaves the channel set as it is. *)
Definition diagonal_covered (sp : gmap (channel * channel) F) : Prop :=
  set_Forall (λ k, k.1 = k.2 →
                set_Exists (λ k', k'.1 = k.1 ∧ k'.2 ≠ k.1) (dom sp)) (dom sp).

Global Instance diagonal_covered_dec sp : Decision (diagonal_covered sp).
Proof. unfold diagonal_covered. apply _. Defined.

(** The reading of the mixing matrix with source and target exchanged:
    the entry in the row of r and the column of c is [spillover[(c, r)]]. *)
Definition transposed_entries (sp : gmap (channel * channel) F) (chs : list channel)
    (M : list (list F)) : Prop :=
  ∀ i j r c, chs !! i = Some r → chs !! j = Some c → r ≠ c →
    entry M i j = sp !! (c, r).

(** The arithmetic is exact on [x]: multiplying by one and adding zero
    give [x] back, multiplying by zero gives zero. *)
Definition exact_on (x : F) : Prop :=
  fmul x fone = x ∧ fmul x fzero = fzero ∧ fadd fzero x = x ∧ fadd x fzero = x.

Definition exact_on_frame (d : DataFrame) : Prop :=
  exact_on fzero ∧ Forall (map_Forall (λ _ v, exact_on v)) (rows d).

Global Instance exact_on_dec `{!EqDecision F} x : Decision (exact_on x).
Proof. unfold exact_on. apply _. Defined.

Global Instance exact_on_frame_dec `{!EqDecision F} d : Decision (exact_on_frame d).
Proof. unfold exact_on_frame. apply _. Defined.

Global Instance frame_wf_dec d : Decision (frame_wf d).
Proof. unfold frame_wf. apply _. Defined.

Global Instance zero_off_diagonal_dec `{!EqDecision F} sp : Decision (zero_off_diagonal sp).
Proof. unfold zero_off_diagonal. apply _. Defined.

Global Instance mirrored_dec sp : Decision (mirrored sp).
Proof. unfold mirrored. apply _. Defined.

(** ** estimate *)

(** The file system and the control reader, which live outside the
    module: [isfile] is [os.path.isfile], and [load_control f e c] is
    [parse_tube(f, e).sort(c)], the events of control file [f] ordered by
    channel [c]. *)
Record World := {
  isfile : File → bool;
  load_control : File → Experiment → channel → outcome DataFrame
}.

(** [self.controls[channel]] *)
Definition controls_get (self : BleedthroughLinearOp) (c : channel) : outcome File :=
  match controls self !! c with
  | Some f => Ok f
  | None => PyFail (KeyError_channel c)
  end.

(** Lines 102-105. *)
Definition check_file (w : World) (self : BleedthroughLinearOp) (c : channel)
    : outcome unit :=
  f ← controls_get self c;
  if isfile w f then Ok () else OpFail (ControlFileNotFound f c).

(** Lines 110-113: subtract the autofluorescence median of one channel. *)
Definition subtract_af (e : Experiment) (af_channel : channel) (d : DataFrame)
    : outcome DataFrame :=
  match metadata e !! af_channel with
  | None => PyFail (KeyError_channel af_channel)
  | Some md =>
      match md !! "af_median" with
      | None => Ok d
      | Some v =>
          if decide (af_channel ∈ columns d) then
            match v with
            | MFloat x =>
                Ok {| columns := columns d;
                      rows := (λ r, <[af_channel := fsub (cell af_channel r) x]> r)
                                <$> rows d |}
            | _ => PyFail (TypeError "unsupported operand")
            end
          else PyFail (KeyError_channel af_channel)
      end
  end.

(** [data[p(data[c])]]: the rows whose value in column [c] satisfies [p]. *)
Definition keep_rows (p : F → bool) (c : channel) (d : DataFrame) : outcome DataFrame :=
  if decide (c ∈ columns d) then
    Ok {| columns := columns d; rows := filter (λ r, p (cell c r)) (rows d) |}
  else PyFail (KeyError_channel c).

(** Lines 124-127 (and 129-132 for the other channel): both bounds are
    taken from the column before any row is dropped. *)
Definition trim (c : channel) (d : DataFrame) : outcome DataFrame :=
  col ← get_column d c;
  let c_min := fmul (np_min col) lit_1_05 in
  let c_max := fmul (np_max col) lit_0_95 in
  d1 ← keep_rows (λ v, flt c_min v) c d;
  keep_rows (λ v, flt v c_max) c d1.

(** Lines 124-138: the two trims and the fit.  Returns the trimmed frame,
    which the code stores back into the variable [data], and the slope
    [lr[0]]. *)
Definition fit (from_channel to_channel : channel) (d : DataFrame)
    : outcome (DataFrame * F) :=
  d1 ← trim from_channel d;
  d2 ← trim to_channel d1;
  xs ← get_column d2 from_channel;
  ys ← get_column d2 to_channel;
  match np_polyfit1 xs ys with
  | Some lr => Ok (d2, lr.1)
  | None => PyFail (NumpyError "polyfit")
  end.

(** Body of the loop over [to_channel], lines 115-140.  The state is the
    local variable [data] and the dict [self.spillover]. *)
Definition fit_step (from_channel to_channel : channel)
    (st : DataFrame * gmap (channel * channel) F)
    : outcome unit * (DataFrame * gmap (channel * channel) F) :=
  if decide (from_channel = to_channel) then (Ok (), st)
  else
    match fit from_channel to_channel st.1 with
    | Ok (d, slope) => (Ok (), (d, <[(from_channel, to_channel) := slope]> st.2))
    | OpFail e => (OpFail e, st)
    | PyFail e => (PyFail e, st)
    end.

(** Lines 108-113: the control of [c], baselines subtracted. *)
Definition prepare_control (w : World) (self : BleedthroughLinearOp) (e : Experiment)
    (channels : list channel) (c : channel) : outcome DataFrame :=
  f ← controls_get self c;
  d ← load_control w f e c;
  for_fold (subtract_af e) channels d.

(** Body of the loop over [channel], lines 107-140. *)
Definition estimate_channel (w : World) (self : BleedthroughLinearOp) (e : Experiment)
    (channels : list channel) (c : channel) (sp : gmap (channel * channel) F)
    : outcome unit * gmap (channel * channel) F :=
  match prepare_control w self e channels c with
  | Ok d =>
      let '(o, st) := loop (fit_step c) channels (d, sp) in (o, st.2)
  | failure => (void failure, sp)
  end.

Definition set_spillover (self : BleedthroughLinearOp) (sp : gmap (channel * channel) F)
    : BleedthroughLinearOp :=
  {| name := name self; controls := controls self; spillover := sp |}.

(** [BleedthroughLinearOp.estimate].  The result is the outcome of the
    call together with the operation as the call leaves it (its
    [spillover] dict is updated in place; the argument [subset] is not
    used by the code). *)
Definition estimate (w : World) (self : BleedthroughLinearOp)
    (experiment : option Experiment) : outcome unit * BleedthroughLinearOp :=
  match experiment with
  | None => (OpFail NoExperiment, self)
  | Some e =>
      let channels := controls_iter (dom (controls self)) in
      if decide (length channels < 2) then (OpFail TooFewChannels, self)
      else
        match for_each (check_file w self) channels with
        | Ok _ =>
            let '(o, sp) := loop (estimate_channel w self e channels) channels
                              (spillover self) in
            (o, set_spillover self sp)
        | failure => (failure, self)
        end
  end.

(** ** Vocabulary for the statements about estimate *)

(** The two trims of the specification, in order: first on the source
    channel, then on the target channel of the rows that are left. *)
Definition two_step_trim (from_channel to_channel : channel) (d : DataFrame)
    : outcome DataFrame :=
  d1 ← trim from_channel d;
  trim to_channel d1.

(** The coefficient as the specification defines it: the slope of the line
    fitted to the rows of the prepared control of [from_channel] that
    survive the two trims. *)
Definition spec_coefficient (w : World) (self : BleedthroughLinearOp) (e : Experiment)
    (from_channel to_channel : channel) : outcome F :=
  d ← prepare_control w self e (controls_iter (dom (controls self))) from_channel;
  d2 ← two_step_trim from_channel to_channel d;
  xs ← get_column d2 from_channel;
  ys ← get_column d2 to_channel;
  match np_polyfit1 xs ys with
  | Some lr => Ok lr.1
  | None => PyFail (NumpyError "polyfit")
  end.

End Model.

(** ** Objects and aliasing

    [experiment.data] is a frame object and every [experiment.metadata[c]]
    is a dict object; [apply] writes to the objects of the experiment it
    got from [clone()].  The store maps object identities to their
    contents; an experiment is known by the identities of its parts. *)

Section Objects.
Context {F : Type} `{!Numeric F} `{!PyOrder}.

Abbreviation loc := positive (only parsing).

Record Store := {
  frames : gmap loc (@DataFrame F);
  dicts : gmap loc (gmap string (@MetaValue F))
}.

Record ExperimentRef := {
  data_ref : loc;
  metadata_refs : gmap channel loc
}.

Global Instance DataFrame_inhabited : Inhabited (@DataFrame F) :=
  populate {| columns := ∅; rows := [] |}.

(** The experiment as a value: what reading through the references gives. *)
Definition read_experiment (st : Store) (x : ExperimentRef) : @Experiment F :=
  {| data := frames st !!! data_ref x;
     metadata := (λ l, dicts st !!! l) <$> metadata_refs x |}.

(** Copy of one metadata dict into a fresh object. *)
Definition copy_dict (ds0 : gmap loc (gmap string (@MetaValue F))) (c : channel) (l : loc)
    (acc : gmap channel loc * gmap loc (gmap string (@MetaValue F)))
    : gmap channel loc * gmap loc (gmap string (@MetaValue F)) :=
  let l' := fresh (dom acc.2) in
  (<[c := l']> acc.1, <[l' := ds0 !!! l]> acc.2).

(** Modelled from the spec: [Experiment.clone] (cytoflow/experiment.py is
    not among the sources).  The specification has correction produce a
    new dataset that owns its own frame and its own metadata map, derived
    from but not aliasing the input's: the clone's frame and each of its
    metadata dicts are fresh objects holding copies. *)
Definition clone (st : Store) (x : ExperimentRef) : ExperimentRef * Store :=
  let l := fresh (dom (frames st)) in
  let copied := map_fold (copy_dict (dicts st)) (∅, dicts st) (metadata_refs x) in
  ({| data_ref := l; metadata_refs := copied.1 |},
   {| frames := <[l := frames st !!! data_ref x]> (frames st); dicts := copied.2 |}).

(** What the copies made by [clone] look like: the dicts that existed are
    untouched, and every channel has a dict of its own, new, holding what
    the original held. *)
Definition clone_dicts_spec (ds0 : gmap loc (gmap string (@MetaValue F)))
    (m : gmap channel positive)
    (acc : gmap channel positive * gmap positive (gmap string (@MetaValue F))) : Prop :=
  dom ds0 ⊆ dom acc.2 ∧
  (∀ l, l ∈ dom ds0 → acc.2 !! l = ds0 !! l) ∧
  (∀ c l', acc.1 !! c = Some l' →
     (l' ∉ dom ds0) ∧ ∃ l, m !! c = Some l ∧ acc.2 !! l' = Some (ds0 !!! l)) ∧
  (∀ c, acc.1 !! c = None → m !! c = None) ∧
  (∀ c1 c2 l', acc.1 !! c1 = Some l' → acc.1 !! c2 = Some l' → c1 = c2).

(** Body of the metadata loop on the objects of [new_experiment]. *)
Definition set_bleedthrough_in (sp : gmap (channel * channel) F) (channels : list channel)
    (new_experiment : ExperimentRef) (c : channel)
    (ds : gmap loc (gmap string (@MetaValue F)))
    : outcome (gmap loc (gmap string (@MetaValue F))) :=
  d ← bleedthrough_dict sp c channels;
  match metadata_refs new_experiment !! c with
  | Some l => Ok (<[l := <[label := MSpill d]> (ds !!! l)]> ds)
  | None => PyFail (KeyError_channel c)
  end.

(** [apply] on the store: the outcome and the store the call leaves. *)
Definition apply_in (st : Store) (self : @BleedthroughLinearOp F)
    (experiment : option ExperimentRef) : outcome ExperimentRef * Store :=
  match experiment with
  | None => (OpFail NoExperiment, st)
  | Some x =>
      let sp := spillover self in
      match validate sp (read_experiment st x) with
      | Ok _ =>
          let '(new_experiment, st1) := clone st x in
          let channels := channels_of sp in
          match mixing_matrix sp channels with
          | Ok a =>
              match linalg_pinv a with
              | Ok a_inv =>
                  let new_data :=
                    correct_frame channels a_inv (frames st1 !!! data_ref x) in
                  let st2 :=
                    {| frames := <[data_ref new_experiment := new_data]> (frames st1);
                       dicts := dicts st1 |} in
                  match for_fold (set_bleedthrough_in sp channels new_experiment) channels
                          (dicts st2) with
                  | Ok ds => (Ok new_experiment, {| frames := frames st2; dicts := ds |})
                  | failure => (_ ← failure; Ok new_experiment, st2)
                  end
              | failure => (_ ← failure; Ok new_experiment, st1)
              end
          | failure => (_ ← failure; Ok new_experiment, st1)
          end
      | failure => (_ ← failure; Ok x, st)
      end
  end.

End Objects.

(** ** Finite values *)

(** [np_isfinite x] is [np.isfinite(x)]: [x] is neither an infinity nor
    nan. *)
Class Finiteness (F : Type) := {
  np_isfinite : F → bool
}.

Section Finite.
Context {F : Type} `{!Numeric F} `{!Finiteness F}.

Definition finite (x : F) : Prop := np_isfinite x = true.

Definition finite_matrix (M : list (list F)) : Prop := Forall (Forall finite) M.

(** Every value of every event is finite. *)
Definition finite_frame (d : @DataFrame F) : Prop :=
  Forall (map_Forall (λ _ v, finite v)) (rows d).



Global Instance finite_dec x : Decision (finite x).
Proof. unfold finite. apply _. Defined.

Global Instance finite_matrix_dec M : Decision (finite_matrix M).
Proof. unfold finite_matrix. apply _. Defined.

Global Instance finite_frame_dec d : Decision (finite_frame d).
Proof. unfold finite_frame. apply _. Defined.

End Finite.

(** ** A concrete instance: exact rational arithmetic

    Used to run the model on concrete inputs.  The numpy functions are
    replaced by their exact counterparts: the least-squares line and the
    Moore-Penrose pseudoinverse (Greville's column recursion).  Every
    rational matrix has a pseudoinverse, so [np_pinv] always returns
    here. *)

Module Exact.

Definition qadd (x y : Q) : Q := Qred (Qplus x y).
Definition qsub (x y : Q) : Q := Qred (Qminus x y).
Definition qmul (x y : Q) : Q := Qred (Qmult x y).
Definition qdiv (x y : Q) : Q := Qred (Qdiv x y).
Definition qlt (x y : Q) : bool := negb (Qle_bool y x).
Definition qzero (x : Q) : bool := Qeq_bool x 0.

Definition qsum (l : list Q) : Q := foldr qadd 0%Q l.
Definition qdot (v w : list Q) : Q := qsum (zip_with qmul v w).

(** [np.min] and [np.max]; on an empty column numpy gives no number (nan),
    and the value chosen here is never compared with any row. *)
Definition qmin (l : list Q) : Q :=
  match l with
  | [] => 0%Q
  | x :: l' => foldr (λ y m, if qlt y m then y else m) x l'
  end.

Definition qmax (l : list Q) : Q :=
  match l with
  | [] => 0%Q
  | x :: l' => foldr (λ y m, if qlt m y then y else m) x l'
  end.

(** Least-squares line through the points (x, y): slope and intercept.
    Empty input is refused, as [np.polyfit] does.  When all the x are
    equal the system is rank deficient and numpy returns the solution of
    least norm of the column-scaled system, which is
    (mean y / (2 x), mean y / 2). *)
Definition polyfit1 (xs ys : list Q) : option (Q * Q) :=
  match xs with
  | [] => None
  | x0 :: _ =>
      let n := inject_Z (Z.of_nat (length xs)) in
      let sx := qsum xs in
      let sy := qsum ys in
      let den := qsub (qmul n (qdot xs xs)) (qmul sx sx) in
      if qzero den then
        let ybar := qdiv sy n in
        if qzero x0 then Some (0%Q, ybar)
        else Some (qdiv ybar (qmul (2 # 1) x0), qdiv ybar (2 # 1))
      else
        let slope := qdiv (qsub (qmul n (qdot xs ys)) (qmul sx sy)) den in
        Some (slope, qdiv (qsub sy (qmul slope sx)) n)
  end.

(** One step of Greville's recursion: [cols] are the columns seen so far,
    [P] the pseudoinverse of the matrix they form (one row per column),
    [a] the next column. *)
Definition greville_step (st : list (list Q) * list (list Q)) (a : list Q)
    : list (list Q) * list (list Q) :=
  let '(cols, P) := st in
  let zero := (λ _, 0%Q) <$> a in
  let d := (λ p, qdot p a) <$> P in
  let Ad := foldr (zip_with qadd) zero (zip_with (λ di col, qmul di <$> col) d cols) in
  let c := zip_with qsub a Ad in
  let b :=
    if forallb qzero c then
      let dP := foldr (zip_with qadd) zero (zip_with (λ di p, qmul di <$> p) d P) in
      (λ x, qdiv x (qadd 1 (qdot d d))) <$> dP
    else (λ x, qdiv x (qdot c c)) <$> c in
  (cols ++ [a], zip_with (λ di p, zip_with qsub p (qmul di <$> b)) d P ++ [b]).

Definition pinv (A : list (list Q)) : list (list Q) :=
  let n := length (hd [] A) in
  let cols := (λ j, (λ r, nth j r 0%Q) <$> A) <$> seq 0 n in
  (foldl greville_step ([], []) cols).2.

Global Instance Q_numeric : Numeric Q := {|
  fzero := 0%Q;
  fone := 1%Q;
  fadd := qadd;
  fsub := qsub;
  fmul := qmul;
  flt := qlt;
  lit_1_05 := (21 # 20)%Q;
  lit_0_95 := (19 # 20)%Q;
  np_min := qmin;
  np_max := qmax;
  np_polyfit1 := polyfit1;
  np_pinv := λ A, Some (pinv A)
|}.

(** The enumeration in the order of the set's representation. *)
Definition canonical_order (K : Type) `{Countable K} : enumeration K :=
  {| enum_list := elements;
     enum_NoDup := NoDup_elements;
     enum_elem := λ X x, elem_of_elements X x |}.

Global Instance canonical_py_order : PyOrder := {|
  spillover_iter := canonical_order _;
  set_iter := canonical_order _;
  controls_iter := canonical_order _
|}.

End Exact.

(** ** Concrete inputs *)

Module Examples.
Import Exact.

Global Instance Q_eq_dec : EqDecision Q.
Proof. solve_decision. Defined.

(** Two channels: A leaks into B with coefficient 2, B into A with 3. *)
Definition op_AB : @BleedthroughLinearOp Q :=
  {| name := "bleedthrough"; controls := ∅;
     spillover := {[ ("A", "B") := 2%Q; ("B", "A") := 3%Q ]} |}.

(** One event, measured on A, B and a third column W. *)
Definition exp_ABW : @Experiment Q :=
  {| data := {| columns := {[ "A"; "B"; "W" ]};
                rows := [ {[ "A" := 10%Q; "B" := 20%Q; "W" := 7%Q ]} ] |};
     metadata := {[ "A" := ∅; "B" := ∅ ]} |}.

(** What [apply op_AB] makes of [exp_ABW]. *)
Definition corrected_ABW : @Experiment Q :=
  {| data := {| columns := {[ "A"; "B"; "W" ]};
                rows := [ {[ "A" := 10%Q; "B" := 0%Q; "W" := 7%Q ]} ] |};
     metadata := {[ "A" := {[ label := MSpill {[ "B" := 3%Q ]} ]};
                    "B" := {[ label := MSpill {[ "A" := 2%Q ]} ]} ]} |}.

(** The same experiment in a store: its frame is object 1, the metadata
    dicts of A and B are objects 1 and 2. *)
Definition store_ABW : @Store Q :=
  {| frames := {[ 1%positive := data exp_ABW ]};
     dicts := {[ 1%positive := ∅; 2%positive := ∅ ]} |}.

Definition ref_ABW : ExperimentRef :=
  {| data_ref := 1%positive;
     metadata_refs := {[ "A" := 1%positive; "B" := 2%positive ]} |}.

(** Every key mirrored, but no coefficient between A and C. *)
Definition op_chain : @BleedthroughLinearOp Q :=
  {| name := "bleedthrough"; controls := ∅;
     spillover := {[ ("A", "B") := (1 # 10)%Q; ("B", "A") := (1 # 10)%Q;
                     ("B", "C") := (1 # 10)%Q; ("C", "B") := (1 # 10)%Q ]} |}.

Definition exp_ABC : @Experiment Q :=
  {| data := {| columns := {[ "A"; "B"; "C" ]};
                rows := [ {[ "A" := 10%Q; "B" := 20%Q; "C" := 7%Q ]} ] |};
     metadata := {[ "A" := ∅; "B" := ∅; "C" := ∅ ]} |}.

(** Zero coefficients between A and B. *)
Definition op_zero : @BleedthroughLinearOp Q :=
  {| name := "bleedthrough"; controls := ∅;
     spillover := {[ ("A", "B") := 0%Q; ("B", "A") := 0%Q ]} |}.

(** An experiment without a column B. *)
Definition exp_AW : @Experiment Q :=
  {| data := {| columns := {[ "A"; "W" ]};
                rows := [ {[ "A" := 10%Q; "W" := 7%Q ]} ] |};
     metadata := {[ "A" := ∅ ]} |}.



(** Controls of a single event each. *)
Definition single_event : @DataFrame Q :=
  {| columns := {[ "A"; "B" ]}; rows := [ {[ "A" := 1%Q; "B" := 1%Q ]} ] |}.

Definition world_single : @World Q :=
  {| isfile := λ _, true; load_control := λ _ _ _, Ok single_event |}.

Definition op_controls_AB : @BleedthroughLinearOp Q :=
  {| name := "bleedthrough";
     controls := {[ "A" := "a.fcs"; "B" := "b.fcs" ]};
     spillover := ∅ |}.

Definition exp_AB : @Experiment Q :=
  {| data := single_event; metadata := {[ "A" := ∅; "B" := ∅ ]} |}.

(** Three channels and a control of twelve events: C and A grow by one
    per event, B follows the Fibonacci numbers. *)
Definition event (c a b : Z) : gmap channel Q :=
  {[ "C" := inject_Z c; "A" := inject_Z a; "B" := inject_Z b ]}.

Definition twelve_events : @DataFrame Q :=
  {| columns := {[ "A"; "B"; "C" ]};
     rows := [ event 1 1 1; event 2 2 1; event 3 3 2; event 4 4 3;
               event 5 5 5; event 6 6 8; event 7 7 13; event 8 8 21;
               event 9 9 34; event 10 10 55; event 11 11 89; event 12 12 144 ] |}.

Definition world_twelve : @World Q :=
  {| isfile := λ _, true; load_control := λ _ _ _, Ok twelve_events |}.

(** The table holds an entry for channels X and Y, which have no control. *)
Definition op_controls_ABC : @BleedthroughLinearOp Q :=
  {| name := "bleedthrough";
     controls := {[ "A" := "a.fcs"; "B" := "b.fcs"; "C" := "c.fcs" ]};
     spillover := {[ ("X", "Y") := 7%Q ]} |}.

Definition exp_twelve : @Experiment Q :=
  {| data := twelve_events; metadata := {[ "A" := ∅; "B" := ∅; "C" := ∅ ]} |}.

End Examples.

(** ** A second instance: rationals and nan

    [None] is nan, the one value that is not finite.  Arithmetic on nan
    gives nan, a comparison with nan is false, [np.min] and [np.max] give
    nan for a column that holds one or is empty, and the functions of
    [numpy.linalg] raise on a nan (the decomposition does not converge). *)

Module WithNan.
Import Exact Examples.

Definition lift2 (f : Q → Q → Q) (x y : (option Q)) : (option Q) :=
  match x, y with
  | Some a, Some b => Some (f a b)
  | _, _ => None
  end.

Definition nan_lt (x y : (option Q)) : bool :=
  match x, y with
  | Some a, Some b => qlt a b
  | _, _ => false
  end.

(** The numbers of a column, if it holds no nan. *)
Fixpoint numbers (l : list (option Q)) : option (list Q) :=
  match l with
  | [] => Some []
  | Some x :: l' =>
      match numbers l' with
      | Some r => Some (x :: r)
      | None => None
      end
  | None :: _ => None
  end.

Fixpoint number_rows (A : list (list (option Q))) : option (list (list Q)) :=
  match A with
  | [] => Some []
  | row :: A' =>
      match numbers row, number_rows A' with
      | Some r, Some M => Some (r :: M)
      | _, _ => None
      end
  end.

Definition nan_reduce (f : list Q → Q) (l : list (option Q)) : (option Q) :=
  match numbers l with
  | Some (x :: l') => Some (f (x :: l'))
  | _ => None
  end.

Definition nan_polyfit1 (xs ys : list (option Q)) : option ((option Q) * (option Q)) :=
  match numbers xs, numbers ys with
  | Some a, Some b =>
      match polyfit1 a b with
      | Some lr => Some (Some lr.1, Some lr.2)
      | None => None
      end
  | _, _ => None
  end.

Definition nan_pinv (A : list (list (option Q))) : option (list (list (option Q))) :=
  match number_rows A with
  | Some M => Some (map (map Some) (pinv M))
  | None => None
  end.

#[export] Instance QN_numeric : Numeric (option Q) := {|
  fzero := Some 0%Q;
  fone := Some 1%Q;
  fadd := lift2 qadd;
  fsub := lift2 qsub;
  fmul := lift2 qmul;
  flt := nan_lt;
  lit_1_05 := Some (21 # 20)%Q;
  lit_0_95 := Some (19 # 20)%Q;
  np_min := nan_reduce qmin;
  np_max := nan_reduce qmax;
  np_polyfit1 := nan_polyfit1;
  np_pinv := nan_pinv
|}.

#[export] Instance QN_finiteness : Finiteness (option Q) := {|
  np_isfinite := λ x, match x with Some _ => true | None => false end
|}.


Definition exp_finite : @Experiment (option Q) :=
  {| data := {| columns := {[ "A"; "B"; "W" ]};
                rows := [ {[ "A" := Some 10%Q; "B" := Some 20%Q; "W" := Some 7%Q ]} ] |};
     metadata := {[ "A" := ∅; "B" := ∅ ]} |}.





(** A table with a nan coefficient. *)
Definition op_nan : @BleedthroughLinearOp (option Q) :=
  {| name := "bleedthrough"; controls := ∅;
     spillover := {[ ("A", "B") := None; ("B", "A") := Some (1 # 10)%Q ]} |}.

End WithNan.

(** ** The diagnostic view (bleedthrough_linear.py, lines 195-278) *)

(** [np_percentile_5_95 col] is [np.percentile(col, (5, 95))]. *)
Class Plotting (F : Type) := {
  np_percentile_5_95 : list F → F * F
}.

Section Diagnostic.
Context {F : Type} `{!Numeric F} `{!PyOrder} `{!Plotting F}.

Record BleedthroughLinearDiagnostic := {
  view_name : string;
  op : @BleedthroughLinearOp F
}.

(** [BleedthroughLinearOp.default_view]; [None] is the
    [CytoflowOpError] "Must have both the controls and bleedthrough to
    plot". *)
Definition default_view (self : @BleedthroughLinearOp F)
    : option BleedthroughLinearDiagnostic :=
  let channels := channels_of (spillover self) in
  if decide (dom (controls self) ≠ list_to_set channels) then None
  else Some {| view_name := ""; op := self |}.

(** One subplot: its index in the grid, the axis limits and labels, the
    scattered events and the two ends of the line. *)
Record Panel := {
  position : nat;
  xlim : F * F;
  ylim : F * F;
  xlabel : channel;
  ylabel : channel;
  scatter : list (F * F);
  line : list (F * F)
}.

(** [enumerate(channels)] *)
Definition enumerate {A} (l : list A) : list (nat * A) := imap pair l.

(** The pairs visited by the two nested loops of [plot], in order; the
    pairs with [from_idx == to_idx] are skipped. *)
Definition plot_pairs (channels : list channel)
    : list ((nat * channel) * (nat * channel)) :=
  f ← enumerate channels;
  t ← enumerate channels;
  if decide (f.1 = t.1) then [] else [(f, t)].

(** Body of the loops of [plot], lines 258-278.  [parse_tube] is the
    control reader; [np.linspace(xstart, xstop, 2)] is the list of the two
    ends. *)
Definition plot_panel (parse_tube : File → @Experiment F → outcome (@DataFrame F))
    (self : BleedthroughLinearDiagnostic) (e : @Experiment F) (num_channels : nat)
    (p : (nat * channel) * (nat * channel)) : outcome Panel :=
  let '((from_idx, from_channel), (to_idx, to_channel)) := p in
  f ← controls_get (op self) from_channel;
  tube_data ← parse_tube f e;
  let k := from_idx + (to_idx * num_channels) + 1 in
  xcol ← get_column tube_data from_channel;
  ycol ← get_column tube_data to_channel;
  let '(xstart, xstop) := np_percentile_5_95 xcol in
  let xs := [xstart; xstop] in
  slope ← spill_get (spillover (op self)) from_channel to_channel;
  let ys := (λ x, fmul x slope) <$> xs in
  Ok {| position := k;
        xlim := np_percentile_5_95 xcol;
        ylim := np_percentile_5_95 ycol;
        xlabel := from_channel;
        ylabel := to_channel;
        scatter := zip xcol ycol;
        line := zip xs ys |}.

(** [BleedthroughLinearDiagnostic.plot]: the subplots drawn, in order.
    The keyword arguments are given defaults and then not used. *)
Definition plot (parse_tube : File → @Experiment F → outcome (@DataFrame F))
    (self : BleedthroughLinearDiagnostic) (experiment : option (@Experiment F))
    : outcome (list Panel) :=
  match experiment with
  | None => OpFail NoExperiment
  | Some e =>
      let channels := channels_of (spillover (op self)) in
      let num_channels := length channels in
      mapM (plot_panel parse_tube self e num_channels) (plot_pairs channels)
  end.

(** Every key of the table is a pair of two distinct control channels, as
    in a table that only [estimate] has written. *)
Definition keys_among_controls (self : @BleedthroughLinearOp F) : Prop :=
  set_Forall (λ k, k.1 ∈ dom (controls self) ∧ k.2 ∈ dom (controls self) ∧ k.1 ≠ k.2)
    (dom (spillover self)).

Global Instance keys_among_controls_dec self : Decision (keys_among_controls self).
Proof. unfold keys_among_controls. apply _. Defined.

End Diagnostic.

(** ** Operation handlers (cytoflowgui/op_plugins/i_op_plugin.py) *)

(** Python's order on [str], and on pairs of [str]. *)
Definition str_le (a b : string) : Prop := String.leb a b = true.

Definition pair_le (k1 k2 : string * string) : Prop :=
  if decide (k1.1 = k2.1) then str_le k1.2 k2.2 else str_le k1.1 k2.1.

Global Instance str_le_dec a b : Decision (str_le a b).
Proof. unfold str_le. apply _. Defined.

Global Instance pair_le_dec k1 k2 : Decision (pair_le k1 k2).
Proof. unfold pair_le. destruct (decide (k1.1 = k2.1)); apply _. Defined.

Section Handler.
Context {V S : Type}.

(** The fields of a [WorkflowItem] that the handlers read.  The class is
    declared in cytoflowgui/workflow_item.py: the conditions are keyed by
    name, the statistics by a pair of names. *)
Local Unset Elimination Schemes.
Inductive WorkflowItem := {
  conditions : gmap string V;
  statistics : gmap (string * string) S;
  previous_wi : option WorkflowItem
}.
Local Set Elimination Schemes.

(** The order in which the two dicts enumerate their keys. *)
Context (conditions_keys : enumeration string).
Context (statistics_keys : enumeration (string * string)).

(** [sorted(list(d.keys()))] *)
Definition sorted_condition_keys (d : gmap string V) : list string :=
  merge_sort str_le (conditions_keys (dom d)).

Definition sorted_statistic_keys (d : gmap (string * string) S) : list (string * string) :=
  merge_sort pair_le (statistics_keys (dom d)).

(** [OpHandlerMixin._get_conditions_names]; a dict is true when it is not
    empty. *)
Definition _get_conditions_names (context : option WorkflowItem) : list string :=
  match context with
  | Some wi =>
      if decide (conditions wi ≠ ∅) then sorted_condition_keys (conditions wi) else []
  | None => []
  end.

(** [OpHandlerMixin._get_previous_conditions_names] *)
Definition _get_previous_conditions_names (context : option WorkflowItem) : list string :=
  match context with
  | Some wi =>
      match previous_wi wi with
      | Some prev =>
          if decide (conditions prev ≠ ∅) then sorted_condition_keys (conditions prev)
          else []
      | None => []
      end
  | None => []
  end.

(** [OpHandlerMixin._get_statistics_names] *)
Definition _get_statistics_names (context : option WorkflowItem)
    : list (string * string) :=
  match context with
  | Some wi =>
      if decide (statistics wi ≠ ∅) then sorted_statistic_keys (statistics wi) else []
  | None => []
  end.

(** [OpHandlerMixin._get_previous_statistics_names] *)
Definition _get_previous_statistics_names (context : option WorkflowItem)
    : list (string * string) :=
  match context with
  | Some wi =>
      match previous_wi wi with
      | Some prev =>
          if decide (statistics prev ≠ ∅) then sorted_statistic_keys (statistics prev)
          else []
      | None => []
      end
  | None => []
  end.

End Handler.

(** ** Help text (PluginHelpMixin.get_help) *)

(** The functions of [os.path] and the files the method uses:
    [module_file] is [os.path.abspath(__file__)], [path_head p] is
    [os.path.split(p)[0]], [read_text h] is what
    [open(h, encoding = 'utf-8').read()] returns or raises. *)
Record HelpFiles := {
  module_file : string;
  path_head : string → string;
  path_join : string → string → string;
  path_exists : string → bool;
  read_text : string → outcome string
}.

(** Lines 112-115. *)
Definition help_dir (w : HelpFiles) : string :=
  path_join w (path_head w (path_head w (module_file w))) "help".

(** [os.path.join(help_dir, mod + ".html")] *)
Definition help_file_of (w : HelpFiles) (klass_module : string) : string :=
  path_join w (help_dir w) (klass_module +:+ ".html")%string.

(** Lines 118-126: the help file of the first class of the method
    resolution order that has one; [mro] lists the modules of
    [op.__class__.__mro__]. *)
Fixpoint find_help_file (w : HelpFiles) (mro : list string) : option string :=
  match mro with
  | [] => None
  | klass_module :: mro' =>
      let mod_html := (klass_module +:+ ".html")%string in
      let h := path_join w (help_dir w) mod_html in
      if path_exists w h then Some h else find_help_file w mro'
  end.

(** [PluginHelpMixin.get_help]: the result and the value of
    [self._cached_help] after the call.  [open(None)] raises
    [TypeError]. *)
Definition get_help (w : HelpFiles) (mro : list string) (_cached_help : string)
    : outcome string * string :=
  if decide (_cached_help = "") then
    match find_help_file w mro with
    | Some help_file =>
        match read_text w help_file with
        | Ok text => (Ok text, text)
        | failure => (failure, _cached_help)
        end
    | None => (PyFail (TypeError "expected str, bytes or os.PathLike object, not NoneType"),
               _cached_help)
    end
  else (Ok _cached_help, _cached_help).

(** ** More concrete inputs *)

Module MoreExamples.
Import Exact Examples.

Definition qle (a b : Q) : Prop := Qle_bool a b = true.

Global Instance qle_dec : RelDecision qle.
Proof. intros a b. unfold qle. apply _. Defined.

(** [np.percentile] with linear interpolation between the two nearest
    ranks. *)
Definition qpercentile (p : Q) (l : list Q) : Q :=
  let sorted := merge_sort qle l in
  match sorted with
  | [] => 0%Q
  | _ =>
      let h := qmul (inject_Z (Z.of_nat (length sorted - 1))) p in
      let k := Qfloor h in
      let lo := nth (Z.to_nat k) sorted 0%Q in
      let hi := nth (Z.to_nat k + 1) sorted lo in
      qadd lo (qmul (qsub h (inject_Z k)) (qsub hi lo))
  end.

Global Instance Q_plotting : Plotting Q := {|
  np_percentile_5_95 := λ l, (qpercentile (5 # 100) l, qpercentile (95 # 100) l)
|}.

(** Operations that have not been estimated yet. *)
Definition op_fresh_AB : @BleedthroughLinearOp Q :=
  {| name := "bleedthrough";
     controls := {[ "A" := "a.fcs"; "B" := "b.fcs" ]};
     spillover := ∅ |}.

Definition op_fresh_ABC : @BleedthroughLinearOp Q :=
  {| name := "bleedthrough";
     controls := {[ "A" := "a.fcs"; "B" := "b.fcs"; "C" := "c.fcs" ]};
     spillover := ∅ |}.

(** [op_fresh_AB] and [op_fresh_ABC] after [estimate] with the controls of
    [world_twelve]. *)
Definition op_estimated_AB : @BleedthroughLinearOp Q :=
  (estimate world_twelve op_fresh_AB (Some exp_twelve)).2.

Definition op_estimated_ABC : @BleedthroughLinearOp Q :=
  (estimate world_twelve op_fresh_ABC (Some exp_twelve)).2.

(** A file system without the control files. *)
Definition world_no_files : @World Q :=
  {| isfile := λ _, false; load_control := λ _ _ _, Ok twelve_events |}.

(** The reader of the diagnostic, and two views. *)
Definition parse_twelve (f : File) (e : @Experiment Q) : outcome (@DataFrame Q) :=
  Ok twelve_events.

Definition view_ABC : @BleedthroughLinearDiagnostic Q :=
  {| view_name := ""; op := op_estimated_ABC |}.

Definition view_AB_no_controls : @BleedthroughLinearDiagnostic Q :=
  {| view_name := ""; op := op_AB |}.

Definition panels_ABC : list (@Panel Q) :=
  match plot parse_twelve view_ABC (Some exp_twelve) with
  | Ok panels => panels
  | _ => []
  end.

(** An installation with one help file, for the module of the operation
    that the plugin's operation inherits from. *)
Definition help_files : HelpFiles :=
  {| module_file := "/opt/cytoflowgui/op_plugins/i_op_plugin.py";
     path_head := λ p,
       if decide (p = "/opt/cytoflowgui/op_plugins/i_op_plugin.py")
       then "/opt/cytoflowgui/op_plugins"
       else if decide (p = "/opt/cytoflowgui/op_plugins") then "/opt/cytoflowgui"
       else p;
     path_join := λ a b, (a +:+ "/" +:+ b)%string;
     path_exists := λ h,
       bool_decide (h = "/opt/cytoflowgui/help/cytoflow.operations.threshold.html");
     read_text := λ h, Ok "<html>Threshold</html>" |}.

Definition help_mro : list string :=
  [ "cytoflowgui.op_plugins.threshold"; "cytoflow.operations.threshold";
    "traits.has_traits"; "builtins" ].

End MoreExamples.

(** Closed goals on concrete inputs: by evaluation, or by evaluating the
    decision procedure of the proposition. *)
Ltac by_computation := vm_compute; reflexivity.
Ltac by_decision := apply (bool_decide_unpack _); vm_compute; exact I.

(** * Properties *)

(** ** Loops and outcomes *)

Section Loops.
Context {A B S : Type}.

Lemma outcome_bind_Ok (m : outcome A) (k : A → outcome B) (b : B) :
  m ≫= k = Ok b ↔ ∃ a, m = Ok a ∧ k a = Ok b.
Proof.
  destruct m as [a| |]; simpl; split; try done.
  - intros Hk. by exists a.
  - by intros (a' & [= ->] & Hk).
  - by intros (a' & ? & _).
  - by intros (a' & ? & _).
Qed.

Lemma mapM_cons (f : A → outcome B) (x : A) (l : list A) :
  mapM f (x :: l) = y ← f x; k ← mapM f l; Ok (y :: k).
Proof. done. Qed.

Lemma mapM_Ok (f : A → outcome B) (l : list A) (ys : list B) :
  mapM f l = Ok ys ↔ Forall2 (λ x y, f x = Ok y) l ys.
Proof.
  revert ys. induction l as [|x l IH]; intros ys.
  - split.
    + intros [= <-]. constructor.
    + by inversion 1.
  - rewrite mapM_cons. split.
    + destruct (f x) as [y| |] eqn:Hfx; try done.
      destruct (mapM f l) as [k| |] eqn:Hk; try done.
      intros [= <-]. constructor; [done|]. by apply IH.
    + inversion 1 as [|? y ? k Hfx Hk]; subst. rewrite Hfx.
      apply IH in Hk. by rewrite Hk.
Qed.


Lemma mapM_not_OpFail (f : A → outcome B) (l : list A) e :
  (∀ x e', f x ≠ OpFail e') → mapM f l ≠ OpFail e.
Proof.
  intros Hf. induction l as [|x l IH]; [done|]. rewrite mapM_cons.
  specialize (Hf x).
  destruct (f x) as [y| |]; [|by intros [= ->]; eapply Hf|done].
  by destruct (mapM f l).
Qed.

Lemma mapM_PyFail (f : A → outcome B) (l : list A) e :
  mapM f l = PyFail e → ∃ x, x ∈ l ∧ f x = PyFail e.
Proof.
  induction l as [|x l IH]; [done|]. rewrite mapM_cons.
  destruct (f x) as [y| |] eqn:Hfx; [|done|].
  - destruct (mapM f l) as [k| |]; try done.
    intros [= ->]. destruct IH as (x' & ? & ?); [done|].
    exists x'. split; [by right|done].
  - intros [= ->]. exists x. split; [by left|done].
Qed.

Lemma Forall2_equiv (P Q : A → B → Prop) (l : list A) (k : list B) :
  (∀ x y, P x y ↔ Q x y) → Forall2 P l k ↔ Forall2 Q l k.
Proof.
  intros HPQ. split; intros H; eapply Forall2_impl; try exact H; intros x y; apply HPQ.
Qed.

Lemma for_each_Ok (body : A → outcome unit) (xs : list A) :
  for_each body xs = Ok () ↔ ∀ x, x ∈ xs → body x = Ok ().
Proof.
  induction xs as [|x xs IH]; simpl.
  - split; [|done]. intros _ x Hx. by apply elem_of_nil in Hx.
  - unfold mbind, outcome_bind. split.
    + destruct (body x) as [[]| |] eqn:Hx; try done.
      intros Hxs y [->|Hy]%elem_of_cons; [done|]. by apply IH.
    + intros Hall. rewrite (Hall x) by left. apply IH.
      intros y Hy. apply Hall. by right.
Qed.

Lemma for_each_OpFail (body : A → outcome unit) (xs : list A) e :
  for_each body xs = OpFail e → ∃ x, x ∈ xs ∧ body x = OpFail e.
Proof.
  induction xs as [|x xs IH]; simpl; [done|].
  unfold mbind, outcome_bind.
  destruct (body x) as [[]| |] eqn:Hx; [|by intros [= ->]; exists x; split; [left|]|done].
  intros (y & ? & ?)%IH. exists y. split; [by right|done].
Qed.

Lemma for_each_not_PyFail (body : A → outcome unit) (xs : list A) e :
  (∀ x e', body x ≠ PyFail e') → for_each body xs ≠ PyFail e.
Proof.
  intros Hb. induction xs as [|x xs IH]; simpl; [done|].
  unfold mbind, outcome_bind. specialize (Hb x).
  destruct (body x) as [[]| |]; [done|done|]. intros [= ->]. by eapply Hb.
Qed.

Lemma for_each_cases (body : A → outcome unit) (xs : list A) :
  for_each body xs = Ok () ∨ ∃ x, x ∈ xs ∧ body x = for_each body xs.
Proof.
  induction xs as [|x xs IH]; simpl; [by left|].
  unfold mbind, outcome_bind.
  destruct (body x) as [[]| |] eqn:Hx.
  - destruct IH as [?|(y & ? & ?)]; [by left|]. right. exists y. split; [by right|done].
  - right. exists x. split; [by left|done].
  - right. exists x. split; [by left|done].
Qed.

Lemma loop_app (body : A → S → outcome unit * S) (xs ys : list A) (s s1 : S) :
  loop body xs s = (Ok (), s1) → loop body (xs ++ ys) s = loop body ys s1.
Proof.
  revert s. induction xs as [|x xs IH]; intros s; simpl.
  - by intros [= ->].
  - destruct (body x s) as [[[]| |] s']; try done. apply IH.
Qed.

Lemma loop_stops (body : A → S → outcome unit * S) (xs ys : list A) (x : A) (s s1 : S)
    (r : outcome unit * S) :
  loop body xs s = (Ok (), s1) → body x s1 = r → r.1 ≠ Ok () →
  loop body (xs ++ x :: ys) s = r.
Proof.
  intros Hxs Hx Hr. rewrite (loop_app _ _ _ _ _ Hxs). simpl. rewrite Hx.
  destruct r as [[[]| |] s2]; done.
Qed.

(** An invariant of the state that every step keeps is kept by the loop,
    whatever its outcome. *)
Lemma loop_invariant (I : S → Prop) (body : A → S → outcome unit * S) (xs : list A) (s : S) :
  (∀ x s, x ∈ xs → I s → I (body x s).2) → I s → I (loop body xs s).2.
Proof.
  revert s. induction xs as [|x xs IH]; intros s Hbody Hs; simpl; [done|].
  pose proof (Hbody x s (list_elem_of_here _ _) Hs) as Hx.
  destruct (body x s) as [[[]| |] s']; simpl in *; try done.
  apply IH; [|done]. intros y t Hy. apply Hbody. by right.
Qed.

End Loops.

(** ** Validation and the mixing matrix *)

Section ApplyFacts.
Context {F : Type} `{!Numeric F} `{!PyOrder}.
Implicit Types (sp : gmap (channel * channel) F) (e : @Experiment F).
Implicit Types (chs : list channel) (M : list (list F)).

Lemma check_key_Ok e sp f t :
  check_key e sp (f, t) = Ok () ↔
  f ∈ columns (data e) ∧ t ∈ columns (data e) ∧ (t, f) ∈ dom sp.
Proof.
  unfold check_key. repeat case_decide; split; try done; intros (? & ? & ?); done.
Qed.

Lemma check_key_not_PyFail e sp k x : check_key e sp k ≠ PyFail x.
Proof. destruct k as [f t]. unfold check_key. by repeat case_decide. Qed.

Lemma validate_Ok sp e :
  validate sp e = Ok () ↔
  sp ≠ ∅ ∧ ∀ f t, (f, t) ∈ dom sp →
    f ∈ columns (data e) ∧ t ∈ columns (data e) ∧ (t, f) ∈ dom sp.
Proof.
  unfold validate. case_decide as Hsp.
  - split; [done|]. by intros [? _].
  - rewrite for_each_Ok. split.
    + intros Hall. split; [done|]. intros f t Hft.
      apply check_key_Ok, Hall. by apply enum_elem.
    + intros [_ Hall] [f t] Hft. apply check_key_Ok, Hall. by apply enum_elem in Hft.
Qed.

Lemma validate_not_PyFail sp e x : validate sp e ≠ PyFail x.
Proof.
  unfold validate. case_decide; [done|].
  apply for_each_not_PyFail. intros k x'. apply check_key_not_PyFail.
Qed.

Lemma validate_OpFail sp e err :
  validate sp e = OpFail err →
  (err = SpilloverNotSet ∧ sp = ∅) ∨
  ∃ f t, (f, t) ∈ dom sp ∧
    ((err = ChannelNotFound f ∧ f ∉ columns (data e)) ∨
     (err = ChannelNotFound t ∧ t ∉ columns (data e)) ∨
     (err = MirrorKeyMissing ∧ (t, f) ∉ dom sp)).
Proof.
  unfold validate. case_decide as Hsp.
  - intros [= <-]. by left.
  - intros ([f t] & Hk & Hchk)%for_each_OpFail. right. exists f, t.
    apply enum_elem in Hk. split; [done|].
    unfold check_key in Hchk. repeat case_decide; simplify_eq; eauto.
Qed.

Lemma elem_of_channel_set sp c :
  c ∈ channel_set sp ↔ ∃ t, (c, t) ∈ dom sp.
Proof.
  unfold channel_set. rewrite elem_of_map. split.
  - intros ([f t] & -> & Hk). by exists t.
  - intros (t & Hk). by exists (c, t).
Qed.

Lemma elem_of_channels_of sp c : c ∈ channels_of sp ↔ c ∈ channel_set sp.
Proof. apply enum_elem. Qed.

Lemma NoDup_channels_of sp : NoDup (channels_of sp).
Proof. apply enum_NoDup. Qed.

(** After validation the channel set holds every channel named by a key,
    as source or as target. *)
Lemma channel_set_validated sp e c :
  validate sp e = Ok () →
  c ∈ channel_set sp ↔ ∃ x, (c, x) ∈ dom sp ∨ (x, c) ∈ dom sp.
Proof.
  intros [_ Hall]%validate_Ok. rewrite elem_of_channel_set. split.
  - intros (t & ?). exists t. by left.
  - intros (x & [?|Hx]); [by exists x|]. exists x. by apply Hall in Hx as (_ & _ & ?).
Qed.

Lemma channel_set_columns sp e c :
  validate sp e = Ok () → c ∈ channel_set sp → c ∈ columns (data e).
Proof.
  intros [_ Hall]%validate_Ok (t & Hk)%elem_of_channel_set.
  by apply Hall in Hk as (? & _).
Qed.

Lemma spill_get_Ok sp a b v : spill_get sp a b = Ok v ↔ sp !! (a, b) = Some v.
Proof. unfold spill_get. destruct (sp !! (a, b)); naive_solver. Qed.

Lemma matrix_row_Ok sp chs y row :
  matrix_row sp chs y = Ok row ↔
  Forall2 (λ x v, if decide (x = y) then v = fone else sp !! (y, x) = Some v) chs row.
Proof.
  unfold matrix_row. rewrite mapM_Ok. apply Forall2_equiv. intros x v.
  destruct (decide (x = y)) as [->|Hne].
  - rewrite decide_False by (by intros ?). split; [by intros [= <-]|by intros ->].
  - rewrite decide_True by done. apply spill_get_Ok.
Qed.

Lemma mixing_matrix_Ok sp chs M :
  mixing_matrix sp chs = Ok M ↔
  Forall2 (λ y row,
    Forall2 (λ x v, if decide (x = y) then v = fone else sp !! (y, x) = Some v) chs row)
    chs M.
Proof.
  unfold mixing_matrix. rewrite mapM_Ok. apply Forall2_equiv. intros y row.
  apply matrix_row_Ok.
Qed.

(** The matrix is square, of the size of the channel list. *)
Lemma mixing_matrix_shape sp chs M :
  mixing_matrix sp chs = Ok M →
  length M = length chs ∧ Forall (λ row, length row = length chs) M.
Proof.
  intros HM%mixing_matrix_Ok. split.
  - symmetry. by eapply Forall2_length.
  - apply list.Forall_forall. intros row Hrow.
    apply list_elem_of_lookup in Hrow as [i Hi].
    destruct (Forall2_lookup_r _ _ _ _ _ HM Hi) as (y & _ & Hrow).
    symmetry. by eapply Forall2_length.
Qed.

(** Row [r], column [c] of the matrix: 1.0 on the diagonal,
    [spillover[(r, c)]] elsewhere. *)
Lemma mixing_matrix_entry sp chs M i j r c :
  mixing_matrix sp chs = Ok M →
  chs !! i = Some r → chs !! j = Some c →
  entry M i j = (if decide (r = c) then Some fone else sp !! (r, c)) ∧
  is_Some (entry M i j).
Proof.
  intros HM%mixing_matrix_Ok Hi Hj. unfold entry.
  destruct (Forall2_lookup_l _ _ _ _ _ HM Hi) as (row & -> & Hrow). simpl.
  destruct (Forall2_lookup_l _ _ _ _ _ Hrow Hj) as (v & -> & Hv).
  split; [|by eexists].
  destruct (decide (c = r)) as [->|Hne].
  - rewrite decide_True by done. by subst.
  - rewrite decide_False by done. done.
Qed.

Lemma mixing_matrix_not_OpFail sp chs err : mixing_matrix sp chs ≠ OpFail err.
Proof.
  apply mapM_not_OpFail. intros y err'. apply mapM_not_OpFail. intros x err''.
  case_decide; [|done]. unfold spill_get. by destruct (sp !! (y, x)).
Qed.

(** The only way the construction fails: a missing off-diagonal key. *)
Lemma mixing_matrix_PyFail sp chs x :
  mixing_matrix sp chs = PyFail x →
  ∃ r c, r ∈ chs ∧ c ∈ chs ∧ r ≠ c ∧ sp !! (r, c) = None ∧ x = KeyError_pair r c.
Proof.
  intros (r & Hr & Hrow)%mapM_PyFail. apply mapM_PyFail in Hrow as (c & Hc & Hget).
  exists r, c. case_decide; [|done]. unfold spill_get in Hget.
  destruct (sp !! (r, c)) eqn:Hl; [done|]. by simplify_eq.
Qed.

Lemma mixing_matrix_is_Ok sp chs :
  is_Ok (mixing_matrix sp chs) ↔
  ∀ r c, r ∈ chs → c ∈ chs → c ≠ r → is_Some (sp !! (r, c)).
Proof.
  split.
  - intros [M HM] r c [i Hi]%list_elem_of_lookup [j Hj]%list_elem_of_lookup Hne.
    destruct (mixing_matrix_entry _ _ _ _ _ _ _ HM Hi Hj) as [Heq Hsome].
    rewrite decide_False in Heq by done. by rewrite <-Heq.
  - intros Hall. destruct (mixing_matrix sp chs) as [M|err|x] eqn:HM.
    + by eexists.
    + by apply mixing_matrix_not_OpFail in HM.
    + apply mixing_matrix_PyFail in HM as (r & c & Hr & Hc & Hne & Hnone & _).
      destruct (Hall r c Hr Hc) as [v Hv]; [done|]. congruence.
Qed.

(** ** The corrected rows *)

Lemma assign_cons c0 chs v0 (vals : list F) (r : gmap channel F) :
  assign (c0 :: chs) (v0 :: vals) r = <[c0 := v0]> (assign chs vals r).
Proof. done. Qed.

Lemma assign_lookup_notin chs (vals : list F) (r : gmap channel F) c :
  c ∉ chs → assign chs vals r !! c = r !! c.
Proof.
  revert vals. induction chs as [|c0 chs IH]; intros [|v0 vals] Hc; try done.
  apply not_elem_of_cons in Hc as [Hne Hc]. rewrite assign_cons.
  rewrite lookup_insert_ne by done. by apply IH.
Qed.

Lemma assign_lookup chs (vals : list F) (r : gmap channel F) j c v :
  NoDup chs → chs !! j = Some c → vals !! j = Some v →
  assign chs vals r !! c = Some v.
Proof.
  revert vals j. induction chs as [|c0 chs IH]; intros [|v0 vals] j Hnd Hc Hv;
    try done.
  apply NoDup_cons in Hnd as [Hc0 Hnd]. rewrite assign_cons.
  destruct j as [|j]; simpl in *.
  - simplify_eq. apply lookup_insert_eq.
  - rewrite lookup_insert_ne.
    + by eapply IH.
    + intros ->. apply Hc0. by eapply list_elem_of_lookup_2.
Qed.

Lemma dot_row_length (v : list F) M : length (dot_row v M) = length v.
Proof. unfold dot_row. by rewrite length_fmap, length_seq. Qed.

Lemma dot_row_lookup (v : list F) M j :
  j < length v → dot_row v M !! j = Some (inner v (column j M)).
Proof.
  intros Hj. unfold dot_row. rewrite list_lookup_fmap, lookup_seq_lt by done. done.
Qed.

Lemma select_length chs (r : gmap channel F) : length (select chs r) = length chs.
Proof. unfold select. by rewrite length_fmap. Qed.

Lemma select_lookup chs (r : gmap channel F) j c :
  chs !! j = Some c → select chs r !! j = Some (cell c r).
Proof. intros Hj. unfold select. by rewrite list_lookup_fmap, Hj. Qed.

(** A corrected channel holds the product of the old values of the
    channels with one column of the inverse. *)
Lemma correct_row_lookup chs M (r : gmap channel F) j c :
  NoDup chs → chs !! j = Some c →
  correct_row chs M r !! c = Some (inner (select chs r) (column j M)).
Proof.
  intros Hnd Hj. unfold correct_row. eapply assign_lookup; [done..|].
  apply dot_row_lookup. rewrite select_length. by eapply lookup_lt_Some.
Qed.

Lemma correct_row_lookup_notin chs M (r : gmap channel F) c :
  c ∉ chs → correct_row chs M r !! c = r !! c.
Proof. apply assign_lookup_notin. Qed.

Lemma select_correct_row chs M (r : gmap channel F) :
  NoDup chs → select chs (correct_row chs M r) = dot_row (select chs r) M.
Proof.
  intros Hnd. apply list_eq. intros j.
  destruct (chs !! j) as [c|] eqn:Hj.
  - rewrite (select_lookup _ _ _ _ Hj). unfold cell at 1.
    rewrite (correct_row_lookup _ _ _ _ _ Hnd Hj). simpl.
    rewrite dot_row_lookup; [done|]. rewrite select_length. by eapply lookup_lt_Some.
  - apply lookup_ge_None in Hj.
    rewrite !(proj2 (lookup_ge_None _ _)); [done|..].
    + by rewrite dot_row_length, select_length.
    + by rewrite select_length.
Qed.

Lemma correct_row_dom chs M (r : gmap channel F) :
  (∀ c, c ∈ chs → c ∈ dom r) → dom (correct_row chs M r) = dom r.
Proof.
  unfold correct_row. generalize (dot_row (select chs r) M).
  induction chs as [|c0 chs IH]; intros [|v0 vals] Hin; try done.
  rewrite assign_cons, dom_insert_L, IH.
  - apply subseteq_union_1_L, singleton_subseteq_l, Hin. by left.
  - intros c Hc. apply Hin. by right.
Qed.

(** ** The metadata written by apply *)

Lemma bleedthrough_dict_Ok sp c xs d :
  bleedthrough_dict sp c xs = Ok d →
  ∀ x, d !! x = if decide (x ∈ xs ∧ x ≠ c) then sp !! (x, c) else None.
Proof.
  revert d. induction xs as [|x0 xs IH]; intros d; simpl.
  - intros [= <-] x. rewrite lookup_empty.
    destruct (decide (x ∈ [] ∧ x ≠ c)) as [[Hx _]|_]; [|done].
    by apply elem_of_nil in Hx.
  - case_decide as Hx0.
    + destruct (spill_get sp x0 c) as [v| |] eqn:Hv; try done. simpl.
      destruct (bleedthrough_dict sp c xs) as [d'| |]; try done. simpl.
      intros [= <-] x. apply spill_get_Ok in Hv.
      destruct (decide (x = x0)) as [->|Hne].
      * rewrite lookup_insert_eq, decide_True; [done|]. split; [by left|done].
      * rewrite lookup_insert_ne by done. rewrite (IH d' eq_refl x).
        apply decide_ext. rewrite elem_of_cons. intuition congruence.
    + intros Hd x. rewrite (IH d Hd x). subst x0.
      apply decide_ext. rewrite elem_of_cons. intuition congruence.
Qed.

Lemma bleedthrough_dict_is_Ok sp c xs :
  (∀ x, x ∈ xs → x ≠ c → is_Some (sp !! (x, c))) → is_Ok (bleedthrough_dict sp c xs).
Proof.
  induction xs as [|x0 xs IH]; intros Hall; simpl; [by eexists|].
  destruct IH as [d Hd]. { intros x Hx. apply Hall. by right. }
  case_decide as Hx0; [|by eexists].
  destruct (Hall x0) as [v Hv]; [by left|done|].
  unfold spill_get. rewrite Hv, Hd. simpl. by eexists.
Qed.

Lemma for_fold_cons {A S} (body : A → S → outcome S) x xs s :
  for_fold body (x :: xs) s = s' ← body x s; for_fold body xs s'.
Proof. done. Qed.

Lemma set_bleedthrough_Ok sp chs c (md md1 : gmap channel (gmap string (@MetaValue F))) :
  set_bleedthrough sp chs c md = Ok md1 ↔
  ∃ d m, bleedthrough_dict sp c chs = Ok d ∧ md !! c = Some m ∧
         md1 = <[c := <[label := MSpill d]> m]> md.
Proof.
  unfold set_bleedthrough. split.
  - destruct (bleedthrough_dict sp c chs) as [d| |]; try done. simpl.
    destruct (md !! c) as [m|]; [|done]. intros [= <-]. by exists d, m.
  - intros (d & m & -> & -> & ->). done.
Qed.

Lemma set_bleedthrough_fold_Ok sp chs l
    (md md' : gmap channel (gmap string (@MetaValue F))) :
  NoDup l → for_fold (set_bleedthrough sp chs) l md = Ok md' →
  ∀ c, (c ∈ l → ∃ m d, md !! c = Some m ∧ bleedthrough_dict sp c chs = Ok d ∧
                        md' !! c = Some (<[label := MSpill d]> m)) ∧
       (c ∉ l → md' !! c = md !! c).
Proof.
  revert md. induction l as [|c0 l IH]; intros md Hnd.
  - intros [= <-] c. split; [|done]. intros Hc. by apply elem_of_nil in Hc.
  - apply NoDup_cons in Hnd as [Hc0 Hnd]. rewrite for_fold_cons.
    destruct (set_bleedthrough sp chs c0 md) as [md1| |] eqn:Hs; try done. simpl.
    apply set_bleedthrough_Ok in Hs as (d0 & m0 & Hd0 & Hm0 & ->).
    intros Hrest c. destruct (IH _ Hnd Hrest c) as [IHin IHout]. split.
    + intros [->|Hc]%elem_of_cons.
      * exists m0, d0. rewrite (proj2 (IH _ Hnd Hrest c0)) by done.
        by rewrite lookup_insert_eq.
      * destruct (IHin Hc) as (m & d & Hm & Hd & Hmd'). exists m, d.
        rewrite lookup_insert_ne in Hm; [done|]. by intros ->.
    + intros [Hne Hc]%not_elem_of_cons. rewrite IHout by done.
      by rewrite lookup_insert_ne.
Qed.

Lemma set_bleedthrough_fold_is_Ok sp chs l
    (md : gmap channel (gmap string (@MetaValue F))) :
  (∀ c, c ∈ l → is_Some (md !! c) ∧ is_Ok (bleedthrough_dict sp c chs)) →
  is_Ok (for_fold (set_bleedthrough sp chs) l md).
Proof.
  revert md. induction l as [|c0 l IH]; intros md Hall; [by eexists|].
  destruct (Hall c0) as [[m0 Hm0] [d0 Hd0]]; [by left|].
  rewrite for_fold_cons.
  rewrite (proj2 (set_bleedthrough_Ok sp chs c0 md _)) by (by exists d0, m0). simpl.
  apply IH. intros c Hc. destruct (Hall c) as [Hm Hd]; [by right|]. split; [|done].
  rewrite lookup_insert. case_decide; [by eexists|done].
Qed.

(** ** The shape of a successful apply *)

Lemma apply_Ok (self : @BleedthroughLinearOp F) e e' :
  apply self (Some e) = Ok e' ↔
  validate (spillover self) e = Ok () ∧
  ∃ M P, mixing_matrix (spillover self) (channels_of (spillover self)) = Ok M ∧
       np_pinv M = Some P ∧
       data e' = correct_frame (channels_of (spillover self)) P (data e) ∧
       for_fold (set_bleedthrough (spillover self) (channels_of (spillover self)))
         (channels_of (spillover self)) (metadata e) = Ok (metadata e').
Proof.
  unfold apply, linalg_pinv. split.
  - destruct (validate (spillover self) e) as [[]| |]; try done. simpl.
    destruct (mixing_matrix _ _) as [M| |]; try done. simpl.
    destruct (np_pinv M) as [P|] eqn:HP; try done. simpl.
    destruct (for_fold _ _ _) as [md| |]; try done. simpl.
    intros [= <-]. split; [done|]. by exists M, P.
  - intros (-> & M & P & -> & HP & Hd & Hmd). simpl. rewrite HP. simpl.
    rewrite Hmd. simpl.
    destruct e' as [d' md']. simpl in *. by subst.
Qed.

(** On a validated table with a mixing matrix, a failure of
    [np.linalg.pinv] ends [apply]. *)
Lemma apply_pinv_fails (self : @BleedthroughLinearOp F) e M :
  validate (spillover self) e = Ok () →
  mixing_matrix (spillover self) (channels_of (spillover self)) = Ok M →
  np_pinv M = None →
  apply self (Some e) = PyFail (NumpyError "linalg.pinv").
Proof.
  intros Hv HM HP. unfold apply, linalg_pinv. rewrite Hv. simpl. rewrite HM. simpl.
  by rewrite HP.
Qed.

Lemma complete_mixing_matrix (sp : gmap (channel * channel) F) :
  complete sp → is_Ok (mixing_matrix sp (channels_of sp)).
Proof.
  intros Hcomplete. apply mixing_matrix_is_Ok.
  intros r c Hr%elem_of_channels_of Hc%elem_of_channels_of Hne.
  apply elem_of_dom. by apply Hcomplete.
Qed.

(** [apply] goes through on a validated, complete table when
    [np.linalg.pinv] returns for its mixing matrix. *)
Lemma apply_succeeds_with (self : @BleedthroughLinearOp F) e M P :
  validate (spillover self) e = Ok () →
  complete (spillover self) → has_metadata (spillover self) e →
  mixing_matrix (spillover self) (channels_of (spillover self)) = Ok M →
  np_pinv M = Some P →
  ∃ e', apply self (Some e) = Ok e' ∧
        data e' = correct_frame (channels_of (spillover self)) P (data e).
Proof.
  intros Hv Hcomplete Hmeta HM HP. unfold complete, has_metadata, set_Forall in *.
  assert (∀ r c, r ∈ channels_of (spillover self) → c ∈ channels_of (spillover self) →
            c ≠ r → is_Some (spillover self !! (r, c))) as Hkeys.
  { intros r c Hr%elem_of_channels_of Hc%elem_of_channels_of Hne.
    apply elem_of_dom. by apply Hcomplete. }
  destruct (set_bleedthrough_fold_is_Ok (spillover self) (channels_of (spillover self))
              (channels_of (spillover self)) (metadata e)) as [md Hmd].
  { intros c Hc. split; [by apply Hmeta, elem_of_channels_of|].
    apply bleedthrough_dict_is_Ok. intros x Hx Hne. by apply Hkeys. }
  exists {| data := correct_frame (channels_of (spillover self)) P (data e);
            metadata := md |}.
  split; [|done]. apply apply_Ok. split; [done|]. by exists M, P.
Qed.

Lemma apply_succeeds (self : @BleedthroughLinearOp F) e :
  validate (spillover self) e = Ok () →
  complete (spillover self) → has_metadata (spillover self) e →
  pinv_returns (spillover self) →
  is_Ok (apply self (Some e)).
Proof.
  intros Hv Hcomplete Hmeta (M & HM & [P HP]).
  destruct (apply_succeeds_with self e M P Hv Hcomplete Hmeta HM HP) as (e' & He' & _).
  by exists e'.
Qed.

Lemma set_bleedthrough_fold_not_OpFail sp chs l
    (md : gmap channel (gmap string (@MetaValue F))) err :
  for_fold (set_bleedthrough sp chs) l md ≠ OpFail err.
Proof.
  revert md. induction l as [|c0 l IH]; intros md; [done|]. rewrite for_fold_cons.
  destruct (set_bleedthrough sp chs c0 md) as [md1|err'|x] eqn:Hs; simpl; [apply IH| |done].
  exfalso. revert Hs. unfold set_bleedthrough.
  assert (∀ xs err0, bleedthrough_dict sp c0 xs ≠ OpFail err0) as Hd.
  { induction xs as [|x0 xs IHxs]; intros err0; simpl; [done|]. case_decide; [|done].
    unfold spill_get. destruct (sp !! (x0, c0)); [|done]. simpl.
    specialize (IHxs err0). by destruct (bleedthrough_dict sp c0 xs). }
  specialize (Hd chs). destruct (bleedthrough_dict sp c0 chs) as [d|err0|x]; simpl;
    [|by intros _; apply (Hd err0)|done].
  by destruct (md !! c0).
Qed.

(** [apply] raises [CytoflowOpError] exactly when validation does. *)
Lemma apply_OpFail (self : @BleedthroughLinearOp F) e err :
  apply self (Some e) = OpFail err ↔ validate (spillover self) e = OpFail err.
Proof.
  unfold apply. destruct (validate (spillover self) e) as [[]| |] eqn:Hv; simpl;
    [|split; congruence|split; congruence].
  split; [|done].
  destruct (mixing_matrix _ _) as [M| |] eqn:HM; simpl.
  - unfold linalg_pinv. destruct (np_pinv M) as [P|]; simpl; [|done].
    destruct (for_fold _ _ _) as [md| |] eqn:Hmd; simpl; try done.
    by apply set_bleedthrough_fold_not_OpFail in Hmd.
  - by apply mixing_matrix_not_OpFail in HM.
  - done.
Qed.

(** The typed failures of [apply] on an experiment: an empty table, a key
    naming a channel that is no column, a key without its mirror. *)
Lemma apply_OpFail_iff (self : @BleedthroughLinearOp F) e :
  is_OpFail (apply self (Some e)) ↔
  spillover self = ∅ ∨
  ∃ f t, (f, t) ∈ dom (spillover self) ∧
    (f ∉ columns (data e) ∨ t ∉ columns (data e) ∨ (t, f) ∉ dom (spillover self)).
Proof.
  split.
  - intros [err Herr]. apply apply_OpFail, validate_OpFail in Herr as [[_ ?]|Hk]; [by left|].
    right. destruct Hk as (f & t & Hk & Hcase). exists f, t. split; [done|]. tauto.
  - intros Hbad. destruct (validate (spillover self) e) as [[]|err|x] eqn:Hv.
    + apply validate_Ok in Hv as [Hne Hall]. exfalso.
      destruct Hbad as [?|(f & t & Hk & Hcase)]; [done|].
      destruct (Hall f t Hk) as (? & ? & ?). tauto.
    + exists err. by apply apply_OpFail.
    + by apply validate_not_PyFail in Hv.
Qed.

(** C4, the defect.  A table can pass every check of [apply] (non-empty,
    channels present, every key mirrored) and still lack the coefficient
    of some pair of its channels; [apply] then stops with the [KeyError] of
    the failed subscript [self.spillover[(r, c)]] instead of returning a
    corrected experiment or raising [CytoflowOpError]. *)
Theorem apply_incomplete_table_KeyError (self : @BleedthroughLinearOp F) e :
  validate (spillover self) e = Ok () → (¬ complete (spillover self)) →
  ∃ r c, r ∈ channel_set (spillover self) ∧ c ∈ channel_set (spillover self) ∧
         r ≠ c ∧ ((r, c) ∉ dom (spillover self)) ∧
         apply self (Some e) = PyFail (KeyError_pair r c).
Proof.
  intros Hv Hincomplete. unfold apply. rewrite Hv. simpl.
  destruct (mixing_matrix _ _) as [M|err|x] eqn:HM; simpl.
  - exfalso. apply Hincomplete. intros y Hy x Hx Hne.
    apply elem_of_dom. eapply mixing_matrix_is_Ok; [by exists M|..|done];
      by apply elem_of_channels_of.
  - by apply mixing_matrix_not_OpFail in HM.
  - apply mixing_matrix_PyFail in HM as (r & c & Hr & Hc & Hne & Hnone & ->).
    exists r, c. apply elem_of_channels_of in Hr, Hc.
    split_and!; try done. by apply not_elem_of_dom.
Qed.

(** C1, as the code has it.  On a validated, complete table [apply]
    builds the mixing matrix M and hands it to [np.linalg.pinv]; when that
    returns, [apply] returns an experiment whose channel columns are the
    old channel columns times the pseudoinverse of M, and when it raises,
    so does [apply].  M is square, its rows and columns follow one
    enumeration of the channels named by the table, its diagonal is 1.0
    and the entry in the row of channel r and the column of channel c is
    [spillover[(r, c)]]. *)
Theorem apply_corrects_with_mixing_matrix (self : @BleedthroughLinearOp F) e :
  validate (spillover self) e = Ok () →
  complete (spillover self) → has_metadata (spillover self) e →
  let sp := spillover self in
  let chs := channels_of sp in
  ∃ M,
    NoDup chs ∧ (∀ c, c ∈ chs ↔ ∃ x, (c, x) ∈ dom sp ∨ (x, c) ∈ dom sp) ∧
    mixing_matrix sp chs = Ok M ∧
    length M = length chs ∧ Forall (λ row, length row = length chs) M ∧
    (∀ i j r c, chs !! i = Some r → chs !! j = Some c →
       entry M i j = (if decide (r = c) then Some fone else sp !! (r, c)) ∧
       is_Some (entry M i j)) ∧
    match np_pinv M with
    | Some a_inv =>
        ∃ e', apply self (Some e) = Ok e' ∧
              Forall2 (λ r r', select chs r' = dot_row (select chs r) a_inv)
                (rows (data e)) (rows (data e'))
    | None => apply self (Some e) = PyFail (NumpyError "linalg.pinv")
    end.
Proof.
  intros Hv Hcomplete Hmeta sp chs.
  destruct (complete_mixing_matrix sp Hcomplete) as [M HM].
  exists M. split; [apply NoDup_channels_of|].
  split. { intros c. unfold chs. rewrite elem_of_channels_of.
           by apply channel_set_validated with e. }
  split; [done|].
  destruct (mixing_matrix_shape _ _ _ HM) as [Hlen Hrows].
  split; [done|]. split; [done|].
  split. { intros i j r c. by apply mixing_matrix_entry. }
  destruct (np_pinv M) as [P|] eqn:HP; [|by apply apply_pinv_fails with M].
  destruct (apply_succeeds_with self e M P Hv Hcomplete Hmeta HM HP) as (e' & He' & Hd).
  exists e'. split; [done|].
  rewrite Hd. simpl. apply Forall2_fmap_r, Forall_Forall2_diag, list.Forall_forall.
  intros r _. apply select_correct_row, NoDup_channels_of.
Qed.

(** C7.  After a successful [apply], the channel set holds every channel
    named by a key of the table, and the metadata of every channel c of
    the set holds, under ['linear_bleedthrough'], the dict that maps each
    other channel x of the set to [spillover[(x, c)]] and nothing else; the
    other entries of c's metadata are as before. *)
Theorem apply_records_bleedthrough (self : @BleedthroughLinearOp F) e e' :
  apply self (Some e) = Ok e' →
  (∀ c, c ∈ channel_set (spillover self) ↔
        ∃ x, (c, x) ∈ dom (spillover self) ∨ (x, c) ∈ dom (spillover self)) ∧
  ∀ c, c ∈ channel_set (spillover self) →
  ∃ m d, metadata e !! c = Some m ∧
         metadata e' !! c = Some (<[label := MSpill d]> m) ∧
         ∀ x, d !! x = (if decide (x ∈ channel_set (spillover self) ∧ x ≠ c)
                        then spillover self !! (x, c) else None) ∧
              (x ∈ channel_set (spillover self) → x ≠ c →
               is_Some (spillover self !! (x, c))).
Proof.
  intros (Hv & M & P & HM & _ & _ & Hmd)%apply_Ok.
  split; [intros c; by apply channel_set_validated with e|]. intros c Hc.
  destruct (set_bleedthrough_fold_Ok _ _ _ _ _ (NoDup_channels_of _) Hmd c) as [Hin _].
  destruct Hin as (m & d & Hm & Hd & Hm'); [by apply elem_of_channels_of|].
  exists m, d. split; [done|]. split; [done|]. intros x. split.
  - rewrite (bleedthrough_dict_Ok _ _ _ _ Hd x).
    apply decide_ext. by rewrite elem_of_channels_of.
  - intros Hx Hne. eapply mixing_matrix_is_Ok; [by exists M|..|done];
      by apply elem_of_channels_of.
Qed.

(** ** Zero coefficients *)

Lemma column_identity n j : j < n → column j (identity n) = unit_vector 0 n j.
Proof.
  intros Hj. unfold column, identity, unit_vector.
  rewrite <-list_fmap_compose. apply list_fmap_ext. intros k i Hi. simpl.
  erewrite nth_lookup_Some; [done|].
  rewrite list_lookup_fmap, lookup_seq_lt by done. done.
Qed.

Lemma inner_cons x (v : list F) y w :
  inner (x :: v) (y :: w) = fadd (fmul x y) (inner v w).
Proof. done. Qed.

Lemma unit_vector_cons s n j :
  unit_vector s (S n) j = (if decide (s = j) then fone else fzero) :: unit_vector (S s) n j.
Proof. done. Qed.

Lemma inner_zero_vector (v : list F) s n j :
  Forall exact_on v → exact_on fzero → j < s → inner v (unit_vector s n j) = fzero.
Proof.
  intros Hv (_ & _ & H00 & _). revert s n.
  induction Hv as [|x v (_ & Hx0 & _) Hv IH]; intros s n Hj; [done|].
  destruct n as [|n]; [done|].
  rewrite unit_vector_cons, inner_cons, decide_False by lia.
  rewrite IH by lia. by rewrite Hx0.
Qed.

Lemma inner_unit_vector (v : list F) s j x :
  Forall exact_on v → exact_on fzero → v !! j = Some x →
  inner v (unit_vector s (length v) (s + j)) = x.
Proof.
  intros Hv H0. revert s j.
  induction Hv as [|x0 v Hx0 Hv IH]; intros s j Hj; [done|].
  change (length (x0 :: v)) with (S (length v)). rewrite unit_vector_cons, inner_cons.
  destruct j as [|j]; simpl in Hj.
  - simplify_eq. rewrite decide_True by lia.
    replace (s + 0) with s by lia. rewrite inner_zero_vector by (done || lia).
    destruct Hx0 as (-> & _ & _ & ->). done.
  - rewrite decide_False by lia. replace (s + S j) with (S s + j) by lia.
    rewrite (IH (S s) j Hj).
    assert (exact_on x) as (_ & _ & Hx & _).
    { eapply list.Forall_forall; [exact Hv|]. by eapply list_elem_of_lookup_2. }
    destruct Hx0 as (_ & -> & _). done.
Qed.

(** With zero coefficients the mixing matrix is the identity. *)
Lemma mixing_matrix_zero sp chs M :
  NoDup chs → zero_off_diagonal sp → mixing_matrix sp chs = Ok M →
  M = identity (length chs).
Proof.
  intros Hnd Hzero HM. pose proof (mixing_matrix_shape _ _ _ HM) as [Hlen Hrows].
  apply mixing_matrix_Ok in HM. apply list_eq. intros i. unfold identity.
  rewrite list_lookup_fmap.
  destruct (chs !! i) as [r|] eqn:Hi.
  - destruct (Forall2_lookup_l _ _ _ _ _ HM Hi) as (row & Hrow & Hentries).
    rewrite Hrow, lookup_seq_lt by (by eapply lookup_lt_Some). simpl. f_equal.
    apply list_eq. intros j. rewrite list_lookup_fmap.
    destruct (chs !! j) as [c|] eqn:Hj.
    + destruct (Forall2_lookup_l _ _ _ _ _ Hentries Hj) as (v & Hv & Hval).
      rewrite Hv, lookup_seq_lt by (by eapply lookup_lt_Some). simpl. f_equal.
      destruct (decide (i = j)) as [->|Hne].
      * simplify_eq. by rewrite decide_True in Hval.
      * assert (c ≠ r) as Hcr.
        { intros ->. apply Hne. by eapply NoDup_lookup. }
        rewrite decide_False in Hval by done.
        apply (Hzero (r, c) v Hval). simpl. congruence.
    + apply lookup_ge_None in Hj.
      rewrite (proj2 (lookup_ge_None _ _)), (proj2 (lookup_ge_None _ _)); [done|..].
      * by rewrite length_seq.
      * erewrite <-Forall2_length; [done|exact Hentries].
  - apply lookup_ge_None in Hi.
    rewrite (proj2 (lookup_ge_None _ _)), (proj2 (lookup_ge_None _ _)); [done|..].
    + by rewrite length_seq.
    + by rewrite Hlen.
Qed.

(** Multiplying a row by the identity leaves it as it is. *)
Lemma correct_row_identity chs (r : gmap channel F) :
  NoDup chs → (∀ c, c ∈ chs → c ∈ dom r) →
  exact_on fzero → map_Forall (λ _ v, exact_on v) r →
  correct_row chs (identity (length chs)) r = r.
Proof.
  intros Hnd Hin H0 Hr. apply map_eq. intros c.
  destruct (decide (c ∈ chs)) as [Hc|Hc]; [|by apply correct_row_lookup_notin].
  apply list_elem_of_lookup in Hc as [j Hj].
  rewrite (correct_row_lookup _ _ _ _ _ Hnd Hj).
  assert (j < length chs) as Hlt by (by eapply lookup_lt_Some).
  rewrite column_identity by done.
  destruct (proj1 (elem_of_dom r c)) as [v Hv].
  { apply Hin. by eapply list_elem_of_lookup_2. }
  rewrite Hv. f_equal.
  rewrite <-(select_length chs r).
  apply (inner_unit_vector (select chs r) 0 j v); [|done|].
  - apply list.Forall_forall. intros x [c' [-> Hc']]%list_elem_of_fmap.
    destruct (proj1 (elem_of_dom r c')) as [v' Hv']; [by apply Hin|].
    unfold cell. rewrite Hv'. simpl. by eapply Hr.
  - rewrite (select_lookup _ _ _ _ Hj). unfold cell. by rewrite Hv.
Qed.

(** C5, as the code has it.  For a table that names its channels in
    full (validated, with a coefficient for every ordered pair of distinct
    channels) and whose coefficients are all zero, [apply] returns an
    experiment whose frame equals the input's, given that the arithmetic is
    exact on the values of the frame and that the pseudoinverse of the
    identity is the identity. *)
Theorem apply_zero_table_identity (self : @BleedthroughLinearOp F) e :
  validate (spillover self) e = Ok () →
  complete (spillover self) → has_metadata (spillover self) e →
  frame_wf (data e) → zero_off_diagonal (spillover self) →
  exact_on_frame (data e) →
  np_pinv (identity (length (channels_of (spillover self))))
    = Some (identity (length (channels_of (spillover self)))) →
  ∃ e', apply self (Some e) = Ok e' ∧ data e' = data e.
Proof.
  intros Hv Hcomplete Hmeta Hwf Hzero [H0 Hexact] Hpinv.
  destruct (complete_mixing_matrix _ Hcomplete) as [M HM].
  pose proof HM as HM'.
  apply mixing_matrix_zero in HM'; [|apply NoDup_channels_of|done]. subst M.
  destruct (apply_succeeds_with self e _ _ Hv Hcomplete Hmeta HM Hpinv) as (e' & He' & Hd').
  exists e'. split; [done|]. rewrite Hd'.
  unfold correct_frame. destruct (data e) as [cols rs] eqn:Hd. simpl.
  f_equal. rewrite <-(list_fmap_id rs) at 2. apply list_fmap_ext.
  intros k r Hr. simpl. apply correct_row_identity.
  - apply NoDup_channels_of.
  - intros c Hc%elem_of_channels_of.
    rewrite (proj1 (list.Forall_forall _ _) Hwf r).
    + rewrite <-Hd. by apply channel_set_columns with (spillover self).
    + simpl. by eapply list_elem_of_lookup_2.
  - done.
  - simpl in Hexact. eapply list.Forall_forall; [exact Hexact|].
    by eapply list_elem_of_lookup_2.
Qed.

(** ** Diagonal keys *)










End ApplyFacts.

(** ** Singular matrices and finite values *)

Section FiniteFacts.
Context {F : Type} `{!Numeric F} `{!PyOrder} `{!Finiteness F}.
Implicit Types (chs : list channel) (r : gmap channel F) (v w : list F).








End FiniteFacts.

(** ** The store: what apply writes *)

Section ObjectFacts.
Context {F : Type} `{!Numeric F} `{!PyOrder}.
Implicit Types (st : @Store F) (x y : ExperimentRef).
Implicit Types (ds : gmap positive (gmap string (@MetaValue F))).

Lemma for_fold_sim {A S T} (R : S → T → Prop)
    (body : A → S → outcome S) (body' : A → T → outcome T) xs s t :
  (∀ a s t, R s t → outcome_rel R (body a s) (body' a t)) →
  R s t → outcome_rel R (for_fold body xs s) (for_fold body' xs t).
Proof.
  intros Hstep. revert s t. induction xs as [|a xs IH]; intros s t HR; [done|].
  rewrite !for_fold_cons. specialize (Hstep a s t HR).
  destruct (body a s), (body' a t); simpl in *; try done. by apply IH.
Qed.

Lemma for_fold_invariant {A S} (I : S → Prop) (body : A → S → outcome S) xs s s' :
  (∀ a s s', I s → body a s = Ok s' → I s') →
  I s → for_fold body xs s = Ok s' → I s'.
Proof.
  intros Hstep. revert s. induction xs as [|a xs IH]; intros s Hs; simpl.
  - by intros [= <-].
  - destruct (body a s) as [s1| |] eqn:Hb; simpl; try done.
    apply IH. by eapply Hstep.
Qed.

Lemma clone_dicts ds0 (m : gmap channel positive) :
  clone_dicts_spec ds0 m (map_fold (copy_dict ds0) (∅, ds0) m).
Proof.
  apply (map_fold_weak_ind (λ acc m, clone_dicts_spec ds0 m acc)).
  - split_and!; try done.
  - intros c l m' [refs ds] Hfresh (Hsub & Hold & Hnew & Hdom & Hinj).
    unfold copy_dict. simpl in *.
    pose proof (is_fresh (dom ds)) as Hl'. set (l' := fresh (dom ds)) in *.
    split_and!; simpl.
    + rewrite dom_insert_L. etrans; [exact Hsub|]. apply union_subseteq_r.
    + intros l0 Hl0. rewrite lookup_insert_ne; [by apply Hold|].
      intros <-. by apply Hl', Hsub.
    + intros c0 l0. rewrite lookup_insert. case_decide as Hc; subst.
      * intros [= <-]. split; [by intros ?%Hsub|]. exists l.
        by rewrite !lookup_insert_eq.
      * intros Hc0. destruct (Hnew c0 l0 Hc0) as (Hout & l1 & Hm & Hcopy).
        split; [done|]. exists l1. rewrite !lookup_insert_ne; [done| |done].
        intros <-. apply Hl'. apply elem_of_dom. by eexists.
    + intros c0. rewrite lookup_insert. case_decide; [done|].
      intros ?%Hdom. by rewrite lookup_insert_ne.
    + assert (∀ c0, refs !! c0 = Some l' → False) as Hnot.
      { intros c0 Hc0. destruct (Hnew c0 l' Hc0) as (_ & l1 & _ & Hcopy).
        apply Hl'. apply elem_of_dom. by eexists. }
      intros c1 c2 l0. rewrite !lookup_insert. repeat case_decide; subst; try done.
      * intros [= <-] ?. by destruct (Hnot c2).
      * intros ? [= <-]. by destruct (Hnot c1).
      * apply Hinj.
Qed.

(** The clone reads as the original. *)
Lemma read_clone st x :
  read_experiment (clone st x).2 (clone st x).1 = read_experiment st x.
Proof.
  unfold read_experiment, clone. simpl.
  destruct (clone_dicts (dicts st) (metadata_refs x)) as (_ & _ & Hnew & Hdom & _).
  f_equal.
  - by rewrite lookup_total_insert_eq.
  - apply map_eq. intros c. rewrite !lookup_fmap.
    destruct (_ !! c) as [l'|] eqn:Hc; simpl.
    + destruct (Hnew c l' Hc) as (_ & l & -> & Hcopy). simpl.
      by rewrite (lookup_total_correct _ _ _ Hcopy).
    + by rewrite (Hdom c Hc).
Qed.

(** The clone leaves every object that existed as it was. *)
Lemma clone_frame st x l :
  l ∈ dom (frames st) → frames (clone st x).2 !! l = frames st !! l.
Proof.
  intros Hl. unfold clone. simpl. rewrite lookup_insert_ne; [done|].
  intros <-. by apply (is_fresh (dom (frames st))).
Qed.

Lemma clone_dict st x l :
  l ∈ dom (dicts st) → dicts (clone st x).2 !! l = dicts st !! l.
Proof.
  intros Hl. unfold clone. simpl.
  destruct (clone_dicts (dicts st) (metadata_refs x)) as (_ & Hold & _).
  by apply Hold.
Qed.

Lemma clone_data_ref_fresh st x : data_ref (clone st x).1 ∉ dom (frames st).
Proof. apply is_fresh. Qed.

Lemma clone_metadata_refs_fresh st x c l :
  metadata_refs (clone st x).1 !! c = Some l → l ∉ dom (dicts st).
Proof.
  unfold clone. simpl. intros Hc.
  destruct (clone_dicts (dicts st) (metadata_refs x)) as (_ & _ & Hnew & _).
  by destruct (Hnew c l Hc).
Qed.

Lemma clone_metadata_refs_inj st x c1 c2 l :
  metadata_refs (clone st x).1 !! c1 = Some l →
  metadata_refs (clone st x).1 !! c2 = Some l → c1 = c2.
Proof.
  unfold clone. simpl.
  destruct (clone_dicts (dicts st) (metadata_refs x)) as (_ & _ & _ & _ & Hinj).
  apply Hinj.
Qed.

Lemma set_bleedthrough_in_Ok sp chs y c ds ds' :
  set_bleedthrough_in sp chs y c ds = Ok ds' →
  ∃ d l, metadata_refs y !! c = Some l ∧
         ds' = <[l := <[label := MSpill d]> (ds !!! l)]> ds.
Proof.
  unfold set_bleedthrough_in.
  destruct (bleedthrough_dict sp c chs) as [d| |]; try done. simpl.
  destruct (metadata_refs y !! c) as [l|]; [|done]. intros [= <-]. by exists d, l.
Qed.

(** The metadata loop writes to the dicts of [new_experiment] only. *)
Lemma set_bleedthrough_in_fold_frame sp chs y xs ds ds' (D : gset positive) :
  (∀ c l, metadata_refs y !! c = Some l → l ∉ D) →
  for_fold (set_bleedthrough_in sp chs y) xs ds = Ok ds' →
  ∀ l, l ∈ D → ds' !! l = ds !! l.
Proof.
  intros Hfresh Hfold.
  apply (for_fold_invariant (λ ds1, ∀ l, l ∈ D → ds1 !! l = ds !! l)
           (set_bleedthrough_in sp chs y) xs ds ds'); [|done|done].
  intros c ds1 ds2 Hinv (d & l & Hl & ->)%set_bleedthrough_in_Ok l0 Hl0.
  rewrite lookup_insert_ne; [by apply Hinv|].
  intros <-. by apply (Hfresh c l).
Qed.

(** One step of the metadata loop on the store and on values. *)
Lemma set_bleedthrough_in_sim sp chs y c ds
    (md : gmap channel (gmap string (@MetaValue F))) :
  (∀ c1 c2 l, metadata_refs y !! c1 = Some l → metadata_refs y !! c2 = Some l → c1 = c2) →
  md = (λ l, ds !!! l) <$> metadata_refs y →
  outcome_rel (λ ds' md', md' = (λ l, ds' !!! l) <$> metadata_refs y)
    (set_bleedthrough_in sp chs y c ds) (set_bleedthrough sp chs c md).
Proof.
  intros Hinj ->. unfold set_bleedthrough_in, set_bleedthrough.
  destruct (bleedthrough_dict sp c chs) as [d| |]; simpl; try done.
  rewrite lookup_fmap. destruct (metadata_refs y !! c) as [l|] eqn:Hc; simpl; [|done].
  apply map_eq. intros c0.
  destruct (decide (c0 = c)) as [->|Hne].
  - rewrite lookup_insert_eq, lookup_fmap, Hc. simpl.
    by rewrite lookup_total_insert_eq.
  - rewrite lookup_insert_ne, !lookup_fmap by done.
    destruct (metadata_refs y !! c0) as [l0|] eqn:Hc0; simpl; [|done].
    rewrite lookup_total_insert_ne; [done|]. intros <-. apply Hne. by eapply Hinj.
Qed.

(** [apply] on the store computes what [apply] on values computes: the
    experiment read through the returned reference is the experiment
    returned on values, and the failures are the same. *)
Lemma apply_in_refines st (self : @BleedthroughLinearOp F) x :
  outcome_rel (λ y e', read_experiment (apply_in st self (Some x)).2 y = e')
    (apply_in st self (Some x)).1 (apply self (Some (read_experiment st x))).
Proof.
  unfold apply_in, apply.
  pose proof (read_clone st x) as Hread.
  pose proof (clone_metadata_refs_inj st x) as Hinj.
  assert (frames (clone st x).2 !!! data_ref x = frames st !!! data_ref x) as Hframe.
  { unfold clone. simpl. rewrite lookup_total_insert. by case_decide; subst. }
  destruct (clone st x) as [y st1]. simpl in Hread, Hinj, Hframe.
  destruct (validate (spillover self) (read_experiment st x)) as [[]| |]; simpl; try done.
  destruct (mixing_matrix _ _) as [M| |]; simpl; try done.
  unfold linalg_pinv. destruct (np_pinv M) as [a_inv|]; simpl; try done.
  pose proof (for_fold_sim
    (λ ds' md', md' = (λ l, ds' !!! l) <$> metadata_refs y)
    (set_bleedthrough_in (spillover self) (channels_of (spillover self)) y)
    (set_bleedthrough (spillover self) (channels_of (spillover self)))
    (channels_of (spillover self)) (dicts st1)
    ((λ l, dicts st !!! l) <$> metadata_refs x)) as Hsim.
  destruct (for_fold (set_bleedthrough_in _ _ _) _ _) as [ds| |];
    destruct (for_fold (set_bleedthrough _ _) _ _) as [md| |]; simpl in *;
    try (apply Hsim; [intros; by apply set_bleedthrough_in_sim|
                      by injection Hread as _ <-]).
  unfold read_experiment. simpl. rewrite lookup_total_insert_eq. f_equal.
  - by rewrite Hframe.
  - symmetry. apply Hsim; [intros; by apply set_bleedthrough_in_sim|].
    by injection Hread as _ <-.
Qed.

(** C8.  [apply] is copy-on-write.  Whatever the outcome, every frame
    and every dict that existed before the call is as it was, so the input
    experiment reads as before.  On success the returned experiment has the
    columns of the input and as many rows, and each row agrees with the
    input's on every column outside the channel set of the table. *)
Theorem apply_in_copy_on_write st (self : @BleedthroughLinearOp F) x res st' :
  apply_in st self (Some x) = (res, st') →
  (∀ l, l ∈ dom (frames st) → frames st' !! l = frames st !! l) ∧
  (∀ l, l ∈ dom (dicts st) → dicts st' !! l = dicts st !! l) ∧
  (data_ref x ∈ dom (frames st) →
   map_Forall (λ _ l, l ∈ dom (dicts st)) (metadata_refs x) →
   read_experiment st' x = read_experiment st x) ∧
  (∀ y, res = Ok y →
     columns (data (read_experiment st' y)) = columns (data (read_experiment st x)) ∧
     Forall2 (λ r r', ∀ c, c ∉ channel_set (spillover self) → r' !! c = r !! c)
       (rows (data (read_experiment st x))) (rows (data (read_experiment st' y)))).
Proof.
  intros Happly.
  assert ((∀ l, l ∈ dom (frames st) → frames st' !! l = frames st !! l) ∧
          (∀ l, l ∈ dom (dicts st) → dicts st' !! l = dicts st !! l) ∧
          (∀ y, res = Ok y →
             ∃ a_inv, data (read_experiment st' y) =
                      correct_frame (channels_of (spillover self)) a_inv
                        (data (read_experiment st x)))) as (Hframes & Hdicts & Hdata).
  { revert Happly. unfold apply_in.
    pose proof (clone_frame st x) as Hcf. pose proof (clone_dict st x) as Hcd.
    pose proof (clone_data_ref_fresh st x) as Hfresh.
    pose proof (clone_metadata_refs_fresh st x) as Hmfresh.
    assert (frames (clone st x).2 !!! data_ref x = frames st !!! data_ref x) as Hframe.
    { unfold clone. simpl. rewrite lookup_total_insert. by case_decide; subst. }
    destruct (clone st x) as [y st1]. simpl in Hcf, Hcd, Hfresh, Hmfresh, Hframe.
    destruct (validate (spillover self) (read_experiment st x)) as [[]| |]; simpl;
      [|by intros [= <- <-]..].
    destruct (mixing_matrix _ _) as [M| |]; simpl; [|by intros [= <- <-]..].
    unfold linalg_pinv. destruct (np_pinv M) as [a_inv|]; simpl; [|by intros [= <- <-]].
    assert (∀ l, l ∈ dom (frames st) →
              <[data_ref y := correct_frame (channels_of (spillover self)) a_inv
                                (frames st1 !!! data_ref x)]> (frames st1) !! l
              = frames st !! l) as Hwrite.
    { intros l Hl. rewrite lookup_insert_ne; [by apply Hcf|]. by intros <-. }
    destruct (for_fold (set_bleedthrough_in _ _ _) _ _) as [ds| |] eqn:Hfold; simpl;
      intros [= <- <-]; simpl; [|done..].
    split; [done|]. split.
    - intros l Hl. rewrite <-Hcd by done.
      by apply (set_bleedthrough_in_fold_frame _ _ _ _ _ _ (dom (dicts st)) Hmfresh Hfold).
    - intros ? [= <-]. exists a_inv. simpl. by rewrite lookup_total_insert_eq, Hframe. }
  split; [done|]. split; [done|]. split.
  - intros Hx Hrefs. unfold read_experiment. f_equal.
    + by rewrite !lookup_total_alt, Hframes.
    + apply map_fmap_ext. intros c l Hl. by rewrite !lookup_total_alt, Hdicts by eauto.
  - intros y Hy. destruct (Hdata y Hy) as [a_inv ->]. simpl. split; [done|].
    apply Forall2_fmap_r, Forall_Forall2_diag, list.Forall_forall.
    intros r _ c Hc. apply correct_row_lookup_notin. by rewrite elem_of_channels_of.
Qed.

End ObjectFacts.

(** ** estimate *)

Section EstimateFacts.
Context {F : Type} `{!Numeric F} `{!PyOrder}.
Implicit Types (sp : gmap (channel * channel) F) (e : @Experiment F).
Implicit Types (d : @DataFrame F) (w : @World F) (self : @BleedthroughLinearOp F).

Lemma keep_rows_Ok (p : F → bool) c d d' :
  keep_rows p c d = Ok d' ↔
  c ∈ columns d ∧
  d' = {| columns := columns d; rows := filter (λ r, p (cell c r)) (rows d) |}.
Proof.
  unfold keep_rows. case_decide; split; try done.
  - intros [= <-]. done.
  - by intros [_ ->].
  - by intros [? _].
Qed.

Lemma trim_Ok c d d' :
  trim c d = Ok d' → c ∈ columns d ∧ columns d' = columns d.
Proof.
  unfold trim, get_column. case_decide as Hc; [|done]. simpl.
  intros (d1 & (_ & ->)%keep_rows_Ok & (_ & ->)%keep_rows_Ok)%outcome_bind_Ok.
  done.
Qed.

(** The loop body is the fit over the two trims of the current [data]. *)
Lemma fit_two_step_trim from_channel to_channel d :
  fit from_channel to_channel d =
  d2 ← two_step_trim from_channel to_channel d;
  xs ← get_column d2 from_channel;
  ys ← get_column d2 to_channel;
  match np_polyfit1 xs ys with
  | Some lr => Ok (d2, lr.1)
  | None => PyFail (NumpyError "polyfit")
  end.
Proof.
  unfold fit, two_step_trim. by destruct (trim from_channel d).
Qed.

(** No rows left: the fit is called on empty vectors. *)
Lemma fit_no_rows from_channel to_channel d d2 :
  two_step_trim from_channel to_channel d = Ok d2 → rows d2 = [] →
  np_polyfit1 [] [] = None →
  fit from_channel to_channel d = PyFail (NumpyError "polyfit").
Proof.
  intros Htrim Hrows Hfit. rewrite fit_two_step_trim, Htrim. simpl.
  apply outcome_bind_Ok in Htrim as (d1 & [Hf Hc1]%trim_Ok & [Ht Hc2]%trim_Ok).
  unfold get_column. rewrite !decide_True by congruence. simpl.
  rewrite Hrows. simpl. by rewrite Hfit.
Qed.

(** A step that fits stores the slope of the current [data] under the
    pair and leaves the trimmed frame as the [data] of the next step. *)
Lemma fit_step_Ok (from_channel to_channel : channel) d sp
    (st' : @DataFrame F * gmap (channel * channel) F) :
  from_channel ≠ to_channel →
  fit_step from_channel to_channel (d, sp) = (Ok (), st') →
  two_step_trim from_channel to_channel d = Ok st'.1 ∧
  ∃ slope, fit from_channel to_channel d = Ok (st'.1, slope) ∧
           st'.2 = <[(from_channel, to_channel) := slope]> sp.
Proof.
  intros Hne. unfold fit_step. rewrite decide_False by done. simpl.
  destruct (fit from_channel to_channel d) as [[d2 slope]| |] eqn:Hfit; [|done..].
  intros [= <-]. simpl. split; [|by exists slope].
  rewrite fit_two_step_trim in Hfit.
  destruct (two_step_trim from_channel to_channel d) as [d2'| |]; [|done..].
  simpl in Hfit. destruct (get_column d2' from_channel); [|done..].
  simpl in Hfit. destruct (get_column d2' to_channel); [|done..].
  simpl in Hfit. destruct (np_polyfit1 _ _); [|done]. by injection Hfit as -> _.
Qed.

(** *** Which entries estimate writes *)

Lemma fit_step_lookup (from_channel to_channel : channel)
    (st : @DataFrame F * gmap (channel * channel) F) (k : channel * channel) :
  k ≠ (from_channel, to_channel) →
  (fit_step from_channel to_channel st).2.2 !! k = st.2 !! k.
Proof.
  intros Hk. unfold fit_step. case_decide; [done|].
  destruct (fit _ _ _) as [[d slope]| |]; simpl; [|done..].
  by rewrite lookup_insert_ne.
Qed.

Lemma fit_loop_lookup (from_channel : channel) (ts : list channel)
    (st : @DataFrame F * gmap (channel * channel) F) (k : channel * channel) :
  (∀ t, t ∈ ts → k ≠ (from_channel, t)) →
  (loop (fit_step from_channel) ts st).2.2 !! k = st.2 !! k.
Proof.
  intros Hk.
  apply (loop_invariant (λ s : @DataFrame F * gmap (channel * channel) F,
                           s.2 !! k = st.2 !! k)); [|done].
  intros t s Ht Hs. rewrite fit_step_lookup; [done|]. by apply Hk.
Qed.

Lemma estimate_channel_lookup w self e (chs : list channel) (c : channel) sp
    (k : channel * channel) :
  (∀ t, t ∈ chs → k ≠ (c, t)) →
  (estimate_channel w self e chs c sp).2 !! k = sp !! k.
Proof.
  intros Hk. unfold estimate_channel.
  destruct (prepare_control w self e chs c) as [d| |]; [|done..].
  pose proof (fit_loop_lookup c chs (d, sp) k Hk) as Hloop.
  by destruct (loop (fit_step c) chs (d, sp)) as [o st].
Qed.

Lemma estimate_loop_lookup w self e (chs cs : list channel) sp
    (k : channel * channel) :
  (∀ c t, c ∈ cs → t ∈ chs → k ≠ (c, t)) →
  (loop (estimate_channel w self e chs) cs sp).2 !! k = sp !! k.
Proof.
  intros Hk.
  apply (loop_invariant (λ s : gmap (channel * channel) F, s !! k = sp !! k)); [|done].
  intros c s Hc Hs. rewrite estimate_channel_lookup; [done|].
  intros t Ht. by apply Hk.
Qed.

(** C9.  [estimate] does not clear [self.spillover]: whatever the
    outcome of the call, an entry whose two channels are not both among
    the controls is, after the call, what it was before (present with the
    same value, or absent). *)
Theorem estimate_keeps_foreign_entries w self (experiment : option (@Experiment F))
    (from_channel to_channel : channel) :
  ¬ (from_channel ∈ dom (controls self) ∧ to_channel ∈ dom (controls self)) →
  spillover (estimate w self experiment).2 !! (from_channel, to_channel)
  = spillover self !! (from_channel, to_channel).
Proof.
  intros Hforeign. unfold estimate. destruct experiment as [e|]; [|done].
  case_decide; [done|].
  destruct (for_each _ _) as [[]| |]; [|done..].
  pose proof (estimate_loop_lookup w self e (controls_iter (dom (controls self)))
                (controls_iter (dom (controls self))) (spillover self)
                (from_channel, to_channel)) as Hloop.
  destruct (loop _ _ _) as [o sp]. simpl in *. apply Hloop.
  intros c t Hc%enum_elem Ht%enum_elem [= <- <-]. by apply Hforeign.
Qed.

(** C3, as the code has it.  When the loop reaches a pair
    (from_channel, to_channel) and the two trims leave no row, the fit
    raises inside numpy, [estimate] lets that exception through, not a
    [CytoflowOpError], and nothing is stored for the pair: its entry is
    what it was before the call. *)
Theorem estimate_empty_fit_raises w self e
    (pre_f post_f pre_t post_t : list channel) (from_channel to_channel : channel)
    sp1 d0 (st1 : @DataFrame F * gmap (channel * channel) F) d2 :
  2 ≤ length (controls_iter (dom (controls self))) →
  for_each (check_file w self) (controls_iter (dom (controls self))) = Ok () →
  controls_iter (dom (controls self)) = pre_f ++ from_channel :: post_f →
  loop (estimate_channel w self e (controls_iter (dom (controls self)))) pre_f
    (spillover self) = (Ok (), sp1) →
  prepare_control w self e (controls_iter (dom (controls self))) from_channel = Ok d0 →
  controls_iter (dom (controls self)) = pre_t ++ to_channel :: post_t →
  from_channel ≠ to_channel →
  loop (fit_step from_channel) pre_t (d0, sp1) = (Ok (), st1) →
  two_step_trim from_channel to_channel st1.1 = Ok d2 → rows d2 = [] →
  np_polyfit1 [] [] = None →
  estimate w self (Some e)
    = (PyFail (NumpyError "polyfit"), set_spillover self st1.2) ∧
  st1.2 !! (from_channel, to_channel) = spillover self !! (from_channel, to_channel).
Proof.
  intros Hlen Hfiles Hf Hpre_f Hprep Ht Hne Hpre_t Htrim Hrows Hfit.
  pose proof (enum_NoDup controls_iter (dom (controls self))) as Hnd.
  split.
  - unfold estimate. rewrite decide_False by lia. rewrite Hfiles.
    assert (estimate_channel w self e (controls_iter (dom (controls self)))
              from_channel sp1 = (PyFail (NumpyError "polyfit"), st1.2)) as Hchannel.
    { unfold estimate_channel. rewrite Hprep. rewrite Ht at 1.
      rewrite (loop_stops (fit_step from_channel) pre_t post_t to_channel (d0, sp1) st1
                 (PyFail (NumpyError "polyfit"), st1) Hpre_t); [done| |done].
      unfold fit_step. rewrite decide_False by done.
      by rewrite (fit_no_rows _ _ _ _ Htrim Hrows Hfit). }
    rewrite Hf at 2.
    by rewrite (loop_stops _ pre_f post_f from_channel (spillover self) sp1
                  (PyFail (NumpyError "polyfit"), st1.2) Hpre_f Hchannel).
  - rewrite Hf in Hnd. apply NoDup_app in Hnd as (_ & Hnot_f & _).
    pose proof (enum_NoDup controls_iter (dom (controls self))) as Hnd'.
    rewrite Ht in Hnd'. apply NoDup_app in Hnd' as (_ & Hnot_t & _).
    pose proof (fit_loop_lookup from_channel pre_t (d0, sp1)
                  (from_channel, to_channel)) as Hinner.
    rewrite Hpre_t in Hinner. simpl in Hinner. rewrite Hinner.
    + pose proof (estimate_loop_lookup w self e (controls_iter (dom (controls self)))
                    pre_f (spillover self) (from_channel, to_channel)) as Houter.
      rewrite Hpre_f in Houter. simpl in Houter. apply Houter.
      intros c t Hc _ [= <- <-]. apply (Hnot_f from_channel Hc). by left.
    + intros t Ht' [= <-]. apply (Hnot_t to_channel Ht'). by left.
Qed.

End EstimateFacts.

(** * The model at concrete inputs *)

Section Witnesses.
Import Exact Examples.

Lemma apply_op_AB : apply op_AB (Some exp_ABW) = Ok corrected_ABW.
Proof. by_computation. Qed.

(** *** C1 *)

(** The matrix built for [op_AB] has [spillover[(A, B)]] = 2 in the row of A
    and the column of B, where the exchanged reading wants
    [spillover[(B, A)]] = 3; the corrected event is (10, 0), and the
    exchanged matrix would give (6, 2). *)
Lemma transposed_matrix_refuted :
  channels_of (spillover op_AB) = ["A"; "B"] ∧
  mixing_matrix (spillover op_AB) ["A"; "B"] = Ok [[1; 2]; [3; 1]]%Q ∧
  ¬ transposed_entries (spillover op_AB) ["A"; "B"] [[1; 2]; [3; 1]]%Q ∧
  select ["A"; "B"] <$> rows (data corrected_ABW) = [[10; 0]]%Q ∧
  dot_row [10; 20]%Q <$> np_pinv [[1; 3]; [2; 1]]%Q = Some [6; 2]%Q.
Proof.
  split; [by_computation|]. split; [by_computation|]. split; [|split; by_computation].
  intros Hexchanged. specialize (Hexchanged 0 1 "A" "B" eq_refl eq_refl).
  assert ("A" ≠ "B") as Hne by done. apply Hexchanged in Hne.
  vm_compute in Hne. discriminate Hne.
Qed.

Lemma apply_corrects_with_mixing_matrix_witness :
  validate (spillover op_AB) exp_ABW = Ok () ∧
  complete (spillover op_AB) ∧ has_metadata (spillover op_AB) exp_ABW ∧
  ∃ e' M a_inv,
    apply op_AB (Some exp_ABW) = Ok e' ∧
    mixing_matrix (spillover op_AB) (channels_of (spillover op_AB)) = Ok M ∧
    np_pinv M = Some a_inv ∧
    Forall2 (λ r r', select (channels_of (spillover op_AB)) r'
                     = dot_row (select (channels_of (spillover op_AB)) r) a_inv)
      (rows (data exp_ABW)) (rows (data e')).
Proof.
  assert (validate (spillover op_AB) exp_ABW = Ok ()) as Hv by by_computation.
  assert (complete (spillover op_AB)) as Hc by by_decision.
  assert (has_metadata (spillover op_AB) exp_ABW) as Hm by by_decision.
  split; [exact Hv|]. split; [exact Hc|]. split; [exact Hm|].
  destruct (apply_corrects_with_mixing_matrix op_AB exp_ABW Hv Hc Hm)
    as (M & _ & _ & HM & _ & _ & _ & Hcase).
  destruct (np_pinv M) as [a_inv|] eqn:Hpinv.
  - destruct Hcase as (e' & Happly & Hrows).
    exists e', M, a_inv. split; [exact Happly|]. split; [exact HM|].
    split; [exact Hpinv|exact Hrows].
  - exfalso. discriminate Hpinv.
Defined.

(** *** C4 *)

Lemma apply_incomplete_table_KeyError_witness :
  validate (spillover op_chain) exp_ABC = Ok () ∧
  ¬ complete (spillover op_chain) ∧
  ∃ r c, ((r, c) ∉ dom (spillover op_chain)) ∧
         apply op_chain (Some exp_ABC) = PyFail (KeyError_pair r c).
Proof.
  assert (validate (spillover op_chain) exp_ABC = Ok ()) as Hv by by_computation.
  assert (¬ complete (spillover op_chain)) as Hc.
  { apply (bool_decide_eq_false_1 (complete (spillover op_chain))). by_computation. }
  split; [exact Hv|]. split; [exact Hc|].
  destruct (apply_incomplete_table_KeyError op_chain exp_ABC Hv Hc)
    as (r & c & _ & _ & _ & Hk & Happly).
  exists r, c. split; [exact Hk|exact Happly].
Defined.

(** The run itself: every check passes, and the construction of the matrix
    stops at the missing key (C, A). *)
Lemma apply_op_chain :
  mirrored (spillover op_chain) ∧
  validate (spillover op_chain) exp_ABC = Ok () ∧
  apply op_chain (Some exp_ABC) = PyFail (KeyError_pair "C" "A").
Proof. split; [by_decision|]. split; by_computation. Qed.

(** *** C5 *)

(** A table of zero coefficients, every key mirrored, and an experiment
    without column B: [apply] raises, and returns no experiment. *)
Lemma zero_table_missing_channel :
  zero_off_diagonal (spillover op_zero) ∧ mirrored (spillover op_zero) ∧
  apply op_zero (Some exp_AW) = OpFail (ChannelNotFound "B") ∧
  ¬ ∃ e', apply op_zero (Some exp_AW) = Ok e' ∧ data e' = data exp_AW.
Proof.
  split; [by_decision|]. split; [by_decision|].
  assert (apply op_zero (Some exp_AW) = OpFail (ChannelNotFound "B")) as Happly
    by by_computation.
  split; [exact Happly|]. intros (e' & He' & _). rewrite Happly in He'. discriminate He'.
Qed.

Lemma apply_zero_table_identity_witness :
  validate (spillover op_zero) exp_ABW = Ok () ∧
  complete (spillover op_zero) ∧ has_metadata (spillover op_zero) exp_ABW ∧
  frame_wf (data exp_ABW) ∧ zero_off_diagonal (spillover op_zero) ∧
  exact_on_frame (data exp_ABW) ∧
  np_pinv (identity (length (channels_of (spillover op_zero))))
    = Some (identity (length (channels_of (spillover op_zero)))) ∧
  ∃ e', apply op_zero (Some exp_ABW) = Ok e' ∧ data e' = data exp_ABW.
Proof.
  assert (validate (spillover op_zero) exp_ABW = Ok ()) as Hv by by_computation.
  assert (complete (spillover op_zero)) as Hc by by_decision.
  assert (has_metadata (spillover op_zero) exp_ABW) as Hm by by_decision.
  assert (frame_wf (data exp_ABW)) as Hwf by by_decision.
  assert (zero_off_diagonal (spillover op_zero)) as Hz by by_decision.
  assert (exact_on_frame (data exp_ABW)) as Hex by by_decision.
  assert (np_pinv (identity (length (channels_of (spillover op_zero))))
          = Some (identity (length (channels_of (spillover op_zero))))) as Hp
    by by_computation.
  repeat (split; [assumption|]).
  exact (apply_zero_table_identity op_zero exp_ABW Hv Hc Hm Hwf Hz Hex Hp).
Defined.

(** *** C7 *)

Lemma apply_records_bleedthrough_witness :
  apply op_AB (Some exp_ABW) = Ok corrected_ABW ∧
  "B" ∈ channel_set (spillover op_AB) ∧
  ∃ m d, metadata exp_ABW !! "B" = Some m ∧
         metadata corrected_ABW !! "B" = Some (<[label := MSpill d]> m) ∧
         ∀ x, d !! x = (if decide (x ∈ channel_set (spillover op_AB) ∧ x ≠ "B")
                        then spillover op_AB !! (x, "B") else None) ∧
              (x ∈ channel_set (spillover op_AB) → x ≠ "B" →
               is_Some (spillover op_AB !! (x, "B"))).
Proof.
  assert (apply op_AB (Some exp_ABW) = Ok corrected_ABW) as Happly by by_computation.
  assert ("B" ∈ channel_set (spillover op_AB)) as Hin by by_decision.
  split; [exact Happly|]. split; [exact Hin|].
  exact (proj2 (apply_records_bleedthrough op_AB exp_ABW corrected_ABW Happly) "B" Hin).
Defined.

(** *** C8 *)

Lemma apply_in_copy_on_write_witness :
  data_ref ref_ABW ∈ dom (frames store_ABW) ∧
  map_Forall (λ _ l, l ∈ dom (dicts store_ABW)) (metadata_refs ref_ABW) ∧
  is_Ok (apply_in store_ABW op_AB (Some ref_ABW)).1 ∧
  read_experiment (apply_in store_ABW op_AB (Some ref_ABW)).2 ref_ABW
  = read_experiment store_ABW ref_ABW.
Proof.
  assert (data_ref ref_ABW ∈ dom (frames store_ABW)) as Hd by by_decision.
  assert (map_Forall (λ _ l, l ∈ dom (dicts store_ABW)) (metadata_refs ref_ABW)) as Hm
    by by_decision.
  split; [exact Hd|]. split; [exact Hm|].
  split; [eexists; by_computation|].
  destruct (apply_in_copy_on_write store_ABW op_AB ref_ABW
              (apply_in store_ABW op_AB (Some ref_ABW)).1
              (apply_in store_ABW op_AB (Some ref_ABW)).2)
    as (_ & _ & Hread & _).
  - by destruct (apply_in store_ABW op_AB (Some ref_ABW)).
  - exact (Hread Hd Hm).
Defined.

(** *** C10 *)



(** *** C2 *)

(** C2, the defect.  The trimmed frame is stored back into [data], so
    the fit of a later target channel starts from the rows left by the
    trims of the earlier ones, not from the control.  With the controls
    of [world_twelve] the channels are visited in the order C, A, B.  For
    the source C the first target A gets the coefficient of the two trims,
    1; the second target B gets 53/10, fitted on the four rows left after
    four trims, where the two trims of the control leave eight rows and
    the slope 193/28. *)
Theorem estimate_trims_accumulate :
  controls_iter (dom (controls op_controls_ABC)) = ["C"; "A"; "B"] ∧
  (estimate world_twelve op_controls_ABC (Some exp_twelve)).1 = Ok () ∧
  spillover (estimate world_twelve op_controls_ABC (Some exp_twelve)).2 !! ("C", "A")
    = Some 1%Q ∧
  spec_coefficient world_twelve op_controls_ABC exp_twelve "C" "A" = Ok 1%Q ∧
  spillover (estimate world_twelve op_controls_ABC (Some exp_twelve)).2 !! ("C", "B")
    = Some (53 # 10)%Q ∧
  spec_coefficient world_twelve op_controls_ABC exp_twelve "C" "B" = Ok (193 # 28)%Q ∧
  (length ∘ rows <$> two_step_trim "C" "B" twelve_events) = Ok 8 ∧
  (length ∘ rows <$> (d ← two_step_trim "C" "A" twelve_events; two_step_trim "C" "B" d))
    = Ok 4.
Proof. repeat split; by_computation. Qed.

(** *** C3 *)

(** Controls of one event each: the first trim already drops the event,
    and [estimate] ends with the exception of [np.polyfit], which is not a
    [CytoflowOpError]. *)
Lemma single_event_controls_refuted :
  (rows <$> two_step_trim "A" "B" single_event) = Ok [] ∧
  (estimate world_single op_controls_AB (Some exp_AB)).1 = PyFail (NumpyError "polyfit") ∧
  ¬ is_OpFail (estimate world_single op_controls_AB (Some exp_AB)).1.
Proof.
  split; [by_computation|].
  assert ((estimate world_single op_controls_AB (Some exp_AB)).1
          = PyFail (NumpyError "polyfit")) as Hrun by by_computation.
  split; [exact Hrun|]. intros [err Herr]. rewrite Hrun in Herr. discriminate Herr.
Qed.

Lemma estimate_empty_fit_raises_witness :
  estimate world_single op_controls_AB (Some exp_AB)
    = (PyFail (NumpyError "polyfit"), set_spillover op_controls_AB ∅) ∧
  (∅ : gmap (channel * channel) Q) !! ("A", "B") = spillover op_controls_AB !! ("A", "B").
Proof.
  apply (estimate_empty_fit_raises world_single op_controls_AB exp_AB
           [] ["B"] ["A"] [] "A" "B" ∅ single_event (single_event, ∅)
           {| columns := {[ "A"; "B" ]}; rows := [] |}).
  - vm_compute. lia.
  - by_computation.
  - by_computation.
  - by_computation.
  - by_computation.
  - by_computation.
  - discriminate.
  - by_computation.
  - by_computation.
  - reflexivity.
  - reflexivity.
Defined.

(** *** C9 *)

Lemma estimate_keeps_foreign_entries_witness :
  ¬ ("X" ∈ dom (controls op_controls_ABC) ∧ "Y" ∈ dom (controls op_controls_ABC)) ∧
  (estimate world_twelve op_controls_ABC (Some exp_twelve)).1 = Ok () ∧
  spillover (estimate world_twelve op_controls_ABC (Some exp_twelve)).2 !! ("X", "Y")
  = spillover op_controls_ABC !! ("X", "Y").
Proof.
  assert (¬ ("X" ∈ dom (controls op_controls_ABC) ∧ "Y" ∈ dom (controls op_controls_ABC)))
    as Hforeign by by_decision.
  split; [exact Hforeign|]. split; [by_computation|].
  exact (estimate_keeps_foreign_entries world_twelve op_controls_ABC (Some exp_twelve)
           "X" "Y" Hforeign).
Defined.

End Witnesses.

Section SingularWitnesses.
Import Exact Examples WithNan.

(** *** C6 *)





(** A nan coefficient: the table passes every check, and [apply] ends with
    the exception of [np.linalg.pinv]. *)
Lemma apply_nan_coefficient :
  validate (spillover op_nan) exp_finite = Ok () ∧
  complete (spillover op_nan) ∧ has_metadata (spillover op_nan) exp_finite ∧
  apply op_nan (Some exp_finite) = PyFail (NumpyError "linalg.pinv").
Proof.
  split; [by_computation|]. split; [by_decision|]. split; [by_decision|].
  by_computation.
Qed.

End SingularWitnesses.

(** * Further properties of the code *)

(** ** apply: when it returns, and what it keeps *)

Section MoreApplyFacts.
Context {F : Type} `{!Numeric F} `{!PyOrder}.
Implicit Types (sp : gmap (channel * channel) F) (e : @Experiment F).

Lemma apply_returns_iff (self : @BleedthroughLinearOp F) e :
  is_Ok (apply self (Some e)) ↔
  validate (spillover self) e = Ok () ∧
  complete (spillover self) ∧ has_metadata (spillover self) e ∧
  pinv_returns (spillover self).
Proof.
  split.
  - intros [e' (Hv & M & P & HM & HP & _ & Hmd)%apply_Ok]. split; [done|]. split_and!.
    + intros y Hy x Hx Hne. apply elem_of_dom.
      eapply mixing_matrix_is_Ok; [by exists M|..|done]; by apply elem_of_channels_of.
    + intros c Hc.
      destruct (set_bleedthrough_fold_Ok _ _ _ _ _ (NoDup_channels_of _) Hmd c)
        as [Hin _].
      destruct Hin as (m & _ & Hm & _); [by apply elem_of_channels_of|]. by exists m.
    + exists M. split; [done|]. by exists P.
  - intros (Hv & Hc & Hm & Hp). by apply apply_succeeds.
Qed.

(** [apply] returns exactly when the table is not empty, every key names
    two columns of the experiment and has its mirror, the table has a
    coefficient for every ordered pair of distinct channels, the experiment
    has a metadata dict for every channel of the table, and
    [np.linalg.pinv] returns for the mixing matrix. *)
Theorem apply_is_Ok_iff (self : @BleedthroughLinearOp F) e :
  is_Ok (apply self (Some e)) ↔
  (spillover self ≠ ∅ ∧
   ∀ f t, (f, t) ∈ dom (spillover self) →
     f ∈ columns (data e) ∧ t ∈ columns (data e) ∧ (t, f) ∈ dom (spillover self)) ∧
  complete (spillover self) ∧ has_metadata (spillover self) e ∧
  ∃ M, mixing_matrix (spillover self) (channels_of (spillover self)) = Ok M ∧
       is_Some (np_pinv M).
Proof. rewrite <-validate_Ok. apply apply_returns_iff. Qed.

(** [apply] raises [CytoflowOpError] on an experiment exactly when the
    table is empty, or some key names a channel that is no column of the
    experiment, or some key lacks its mirror. *)
Theorem apply_raises_CytoflowOpError_iff (self : @BleedthroughLinearOp F) e :
  is_OpFail (apply self (Some e)) ↔
  spillover self = ∅ ∨
  ∃ f t, (f, t) ∈ dom (spillover self) ∧
    (f ∉ columns (data e) ∨ t ∉ columns (data e) ∨ (t, f) ∉ dom (spillover self)).
Proof. apply apply_OpFail_iff. Qed.

(** A successful [apply] keeps the columns, the number of events, and the
    shape of the frame: every row still has a value for exactly the
    columns. *)
Theorem apply_preserves_frame (self : @BleedthroughLinearOp F) e e' :
  apply self (Some e) = Ok e' →
  columns (data e') = columns (data e) ∧
  length (rows (data e')) = length (rows (data e)) ∧
  (frame_wf (data e) → frame_wf (data e')).
Proof.
  intros (Hv & M & P & _ & _ & -> & _)%apply_Ok. simpl. split; [done|]. split.
  - by rewrite length_fmap.
  - unfold frame_wf. simpl. intros Hwf. apply Forall_fmap.
    eapply Forall_impl; [exact Hwf|]. intros r Hr. simpl.
    rewrite correct_row_dom; [done|].
    intros c Hc%elem_of_channels_of. rewrite Hr.
    by apply channel_set_columns with (spillover self).
Qed.

(** [apply] has no guard against a second correction: it accepts its own
    result. *)
Theorem apply_accepts_its_result (self : @BleedthroughLinearOp F) e e' :
  apply self (Some e) = Ok e' → is_Ok (apply self (Some e')).
Proof.
  intros Happly. pose proof Happly as (Hv & M & P & HM & HP & Hd & Hmd)%apply_Ok.
  assert (is_Ok (apply self (Some e))) as (_ & Hc & Hm & Hp)%apply_returns_iff
    by by eexists.
  apply apply_returns_iff. split; [|split; [done|split; [|done]]].
  - apply validate_Ok. apply validate_Ok in Hv as [Hne Hall]. split; [done|].
    intros f t Hk. rewrite Hd. simpl. by apply Hall.
  - intros c Hc'.
    destruct (set_bleedthrough_fold_Ok _ _ _ _ _ (NoDup_channels_of _) Hmd c)
      as [Hin _].
    destruct Hin as (m & d & _ & _ & Hm'); [by apply elem_of_channels_of|].
    by eexists.
Qed.

End MoreApplyFacts.

(** ** estimate: setup errors, coverage, and what follows *)

Section MoreLoops.
Context {A S : Type}.

Lemma loop_app_Ok (body : A → S → outcome unit * S) (xs ys : list A) (s s' : S) :
  loop body (xs ++ ys) s = (Ok (), s') →
  ∃ s1, loop body xs s = (Ok (), s1) ∧ loop body ys s1 = (Ok (), s').
Proof.
  revert s. induction xs as [|x xs IH]; intros s; simpl.
  - intros Hys. by exists s.
  - destruct (body x s) as [[[]| |] s1]; try done. apply IH.
Qed.

Lemma loop_cons_Ok (body : A → S → outcome unit * S) (x : A) (xs : list A) (s s' : S) :
  loop body (x :: xs) s = (Ok (), s') →
  ∃ s1, body x s = (Ok (), s1) ∧ loop body xs s1 = (Ok (), s').
Proof.
  simpl. destruct (body x s) as [[[]| |] s1]; try done. intros Hxs. by exists s1.
Qed.

(** A relation between the elements visited and the state, kept by every
    successful step, holds at the end of a successful loop. *)
Lemma loop_Ok_ind (R : list A → S → Prop) (body : A → S → outcome unit * S)
    (xs : list A) (s s' : S) :
  R [] s →
  (∀ pre x s1 s2, R pre s1 → x ∈ xs → body x s1 = (Ok (), s2) → R (pre ++ [x]) s2) →
  loop body xs s = (Ok (), s') → R xs s'.
Proof.
  intros Hnil Hstep.
  assert (∀ ys pre s0, R pre s0 → (∀ y, y ∈ ys → y ∈ xs) →
            loop body ys s0 = (Ok (), s') → R (pre ++ ys) s') as Hgen.
  { induction ys as [|y ys IH]; intros pre s0 Hpre Hsub.
    - simpl. intros [= <-]. by rewrite app_nil_r.
    - intros (s1 & Hy & Hys)%loop_cons_Ok.
      replace (pre ++ y :: ys) with ((pre ++ [y]) ++ ys) by (by rewrite <-app_assoc).
      apply (IH _ s1); [|by intros; apply Hsub; right|done].
      apply (Hstep pre y s0 s1); [done| |done]. apply Hsub. by left. }
  intros Hloop. by apply (Hgen xs [] s).
Qed.

End MoreLoops.

Section MoreEstimateFacts.
Context {F : Type} `{!Numeric F} `{!PyOrder}.
Implicit Types (sp : gmap (channel * channel) F) (e : @Experiment F).
Implicit Types (d : @DataFrame F) (w : @World F) (self : @BleedthroughLinearOp F).

Lemma length_enum `{Countable K} (it : enumeration K) (X : gset K) :
  length (it X) = size X.
Proof.
  unfold size, set_size. simpl. apply Permutation_length, NoDup_Permutation.
  - apply enum_NoDup.
  - apply NoDup_elements.
  - intros x. by rewrite enum_elem, elem_of_elements.
Qed.

Lemma check_file_cases w self (c : channel) f :
  controls self !! c = Some f →
  check_file w self c
  = if isfile w f then Ok () else OpFail (ControlFileNotFound f c).
Proof. intros Hc. unfold check_file, controls_get. by rewrite Hc. Qed.

Lemma check_files_fail w self :
  (∃ c f, controls self !! c = Some f ∧ isfile w f = false) →
  ∃ c f, controls self !! c = Some f ∧ isfile w f = false ∧
         for_each (check_file w self) (controls_iter (dom (controls self)))
         = OpFail (ControlFileNotFound f c).
Proof.
  intros (c & f & Hc & Hf).
  assert (for_each (check_file w self) (controls_iter (dom (controls self))) ≠ Ok ())
    as Hnot.
  { rewrite for_each_Ok. intros Hall. specialize (Hall c).
    rewrite (check_file_cases _ _ _ _ Hc), Hf in Hall.
    discriminate Hall. apply enum_elem, elem_of_dom. by eexists. }
  destruct (for_each_cases (check_file w self) (controls_iter (dom (controls self))))
    as [Hok|(c' & Hc' & Hfail)]; [done|].
  apply enum_elem, elem_of_dom in Hc' as [f' Hf'].
  rewrite (check_file_cases _ _ _ _ Hf') in Hfail.
  destruct (isfile w f') eqn:Hfile; [by rewrite <-Hfail in Hnot|].
  by exists c', f'.
Qed.

(** Lines 98-105.  With fewer than two controls, or with a control file
    that does not exist, [estimate] raises the [CytoflowOpError] of that
    check, and the table is untouched. *)
Theorem estimate_rejects_bad_setup w self e :
  size (dom (controls self)) < 2 ∨
  (∃ c f, controls self !! c = Some f ∧ isfile w f = false) →
  ∃ err, estimate w self (Some e) = (OpFail err, self) ∧
         ((err = TooFewChannels ∧ size (dom (controls self)) < 2) ∨
          ∃ c f, err = ControlFileNotFound f c ∧
                 controls self !! c = Some f ∧ isfile w f = false).
Proof.
  intros Hbad. unfold estimate. rewrite length_enum.
  case_decide as Hsize; [exists TooFewChannels; split; [done|by left]|].
  destruct Hbad as [?|Hmissing]; [lia|].
  destruct (check_files_fail w self Hmissing) as (c & f & Hc & Hf & ->).
  exists (ControlFileNotFound f c). split; [done|]. right. by exists c, f.
Qed.

(** *** What a successful estimate has written *)

Lemma fit_step_dom (from_channel to_channel : channel)
    (st st' : @DataFrame F * gmap (channel * channel) F) :
  fit_step from_channel to_channel st = (Ok (), st') →
  dom st'.2 = dom st.2 ∪ (if decide (from_channel = to_channel) then ∅
                          else {[ (from_channel, to_channel) ]}).
Proof.
  unfold fit_step. case_decide.
  - intros [= <-]. by rewrite (right_id_L ∅ (∪)).
  - destruct (fit _ _ _) as [[d slope]| |]; [|done..].
    intros [= <-]. simpl. rewrite dom_insert_L. apply (comm_L (∪)).
Qed.

Lemma fit_loop_dom (from_channel : channel) (ts : list channel)
    (st st' : @DataFrame F * gmap (channel * channel) F) :
  loop (fit_step from_channel) ts st = (Ok (), st') →
  ∀ k, k ∈ dom st'.2 ↔
       k ∈ dom st.2 ∨ ∃ t, t ∈ ts ∧ t ≠ from_channel ∧ k = (from_channel, t).
Proof.
  apply (loop_Ok_ind
    (λ pre (s : @DataFrame F * gmap (channel * channel) F),
       ∀ k, k ∈ dom s.2 ↔
            k ∈ dom st.2 ∨ ∃ t, t ∈ pre ∧ t ≠ from_channel ∧ k = (from_channel, t))).
  - intros k. split; [by left|]. intros [?|(t & Ht & _)]; [done|].
    by apply elem_of_nil in Ht.
  - intros pre t s1 s2 IH _ Hstep%fit_step_dom k. rewrite Hstep, elem_of_union, IH.
    setoid_rewrite elem_of_app. setoid_rewrite list_elem_of_singleton.
    case_decide as Heq.
    + rewrite elem_of_empty. split.
      * intros [[?|(t' & ? & ? & ?)]|?]; [by left| |done]. right. exists t'. tauto.
      * intros [?|(t' & [?| ->] & ? & ?)]; [tauto| |congruence].
        left. right. by exists t'.
    + rewrite elem_of_singleton. split.
      * intros [[?|(t' & ? & ? & ?)]| ->]; [by left| |].
        -- right. exists t'. tauto.
        -- right. exists t. split_and!; [by right|congruence|done].
      * intros [?|(t' & [?| ->] & ? & ?)]; [tauto| |tauto].
        left. right. by exists t'.
Qed.

Lemma estimate_channel_dom w self e (chs : list channel) (c : channel) sp sp' :
  estimate_channel w self e chs c sp = (Ok (), sp') →
  ∀ k, k ∈ dom sp' ↔ k ∈ dom sp ∨ ∃ t, t ∈ chs ∧ t ≠ c ∧ k = (c, t).
Proof.
  unfold estimate_channel.
  destruct (prepare_control w self e chs c) as [d| |]; [|done..].
  destruct (loop (fit_step c) chs (d, sp)) as [o st] eqn:Hloop.
  intros [= -> <-]. apply (fit_loop_dom c chs (d, sp) st Hloop).
Qed.

Lemma estimate_loop_dom w self e (chs cs : list channel) sp sp' :
  loop (estimate_channel w self e chs) cs sp = (Ok (), sp') →
  ∀ k, k ∈ dom sp' ↔
       k ∈ dom sp ∨ ∃ c t, c ∈ cs ∧ t ∈ chs ∧ t ≠ c ∧ k = (c, t).
Proof.
  apply (loop_Ok_ind
    (λ pre (s : gmap (channel * channel) F),
       ∀ k, k ∈ dom s ↔
            k ∈ dom sp ∨ ∃ c t, c ∈ pre ∧ t ∈ chs ∧ t ≠ c ∧ k = (c, t))).
  - intros k. split; [by left|]. intros [?|(c & t & Hc & _)]; [done|].
    by apply elem_of_nil in Hc.
  - intros pre c s1 s2 IH _ Hstep k.
    rewrite (estimate_channel_dom _ _ _ _ _ _ _ Hstep k), IH.
    setoid_rewrite elem_of_app. setoid_rewrite list_elem_of_singleton. split.
    + intros [[?|(c' & t & ? & ? & ? & ?)]|(t & ? & ? & ?)]; [by left|..].
      * right. exists c', t. tauto.
      * right. exists c, t. tauto.
    + intros [?|(c' & t & [?| ->] & ? & ? & ?)]; [tauto|..].
      * left. right. exists c', t. tauto.
      * right. exists t. tauto.
Qed.

(** The shape of a successful call. *)
Lemma estimate_Ok w self e self' :
  estimate w self (Some e) = (Ok (), self') →
  2 ≤ size (dom (controls self)) ∧
  for_each (check_file w self) (controls_iter (dom (controls self))) = Ok () ∧
  self' = set_spillover self (spillover self') ∧
  loop (estimate_channel w self e (controls_iter (dom (controls self))))
    (controls_iter (dom (controls self))) (spillover self) = (Ok (), spillover self').
Proof.
  unfold estimate. rewrite length_enum. case_decide; [done|].
  destruct (for_each _ _) as [[]| |]; [|done..].
  destruct (loop _ _ _) as [o sp]. intros [= -> <-]. simpl. split; [lia|done].
Qed.

Lemma estimate_covers_all_pairs_aux w self e self' :
  estimate w self (Some e) = (Ok (), self') →
  ∀ k, k ∈ dom (spillover self') ↔
       k ∈ dom (spillover self) ∨
       (k.1 ∈ dom (controls self) ∧ k.2 ∈ dom (controls self) ∧ k.1 ≠ k.2).
Proof.
  intros (_ & _ & Hself & Hloop)%estimate_Ok [f t].
  rewrite (estimate_loop_dom _ _ _ _ _ _ _ Hloop (f, t)).
  setoid_rewrite enum_elem. simpl. split.
  - intros [?|(c & t' & ? & ? & ? & [= -> ->])]; [by left|]. right. split_and!; congruence.
  - intros [?|(? & ? & ?)]; [by left|]. right. exists f, t. split_and!; congruence.
Qed.

(** After a successful [estimate] the table has an entry for every
    ordered pair of distinct control channels; its keys are these pairs
    and the keys it had before.  The controls are as they were. *)
Theorem estimate_covers_all_pairs w self e self' :
  estimate w self (Some e) = (Ok (), self') →
  controls self' = controls self ∧
  ∀ from_channel to_channel,
    (from_channel, to_channel) ∈ dom (spillover self') ↔
    (from_channel, to_channel) ∈ dom (spillover self) ∨
    (from_channel ∈ dom (controls self) ∧ to_channel ∈ dom (controls self) ∧
     from_channel ≠ to_channel).
Proof.
  intros Hest. pose proof Hest as (_ & _ & Hself & _)%estimate_Ok.
  split; [by rewrite Hself|].
  intros f t. apply (estimate_covers_all_pairs_aux w self e self' Hest (f, t)).
Qed.

(** *** estimate, then apply *)

Lemma subtract_af_metadata e (af_channel : channel) d d' :
  subtract_af e af_channel d = Ok d' → is_Some (metadata e !! af_channel).
Proof. unfold subtract_af. destruct (metadata e !! af_channel); [by eexists|done]. Qed.

Lemma prepare_control_metadata w self e (chs : list channel) (c : channel) d :
  prepare_control w self e chs c = Ok d →
  ∀ af_channel, af_channel ∈ chs → is_Some (metadata e !! af_channel).
Proof.
  unfold prepare_control.
  destruct (controls_get self c) as [f| |]; [|done..]. simpl.
  destruct (load_control w f e c) as [d0| |]; [|done..]. simpl.
  revert d0. induction chs as [|c0 chs IH]; intros d0 Hfold af Haf.
  - by apply elem_of_nil in Haf.
  - rewrite for_fold_cons in Hfold.
    destruct (subtract_af e c0 d0) as [d1| |] eqn:Hsub; [|done..]. simpl in Hfold.
    apply elem_of_cons in Haf as [->|Haf]; [by eapply subtract_af_metadata|].
    by eapply IH.
Qed.

Lemma estimate_channel_Ok w self e (chs : list channel) (c : channel) sp sp' :
  estimate_channel w self e chs c sp = (Ok (), sp') →
  ∃ d0 st, prepare_control w self e chs c = Ok d0 ∧
           loop (fit_step c) chs (d0, sp) = (Ok (), st) ∧ sp' = st.2.
Proof.
  unfold estimate_channel.
  destruct (prepare_control w self e chs c) as [d0| |]; [|done..].
  destruct (loop (fit_step c) chs (d0, sp)) as [o st] eqn:Hloop.
  intros [= -> <-]. by exists d0, st.
Qed.

(** A successful [estimate] has read the metadata of every control
    channel. *)
Lemma estimate_Ok_metadata w self e self' (c : channel) :
  estimate w self (Some e) = (Ok (), self') →
  c ∈ dom (controls self) → is_Some (metadata e !! c).
Proof.
  intros (Hsize & _ & _ & Hloop)%estimate_Ok Hc.
  rewrite <-(length_enum controls_iter) in Hsize.
  destruct (controls_iter (dom (controls self))) as [|c0 chs] eqn:Hchs;
    [simpl in Hsize; lia|].
  apply loop_cons_Ok in Hloop as (sp1 & Hchannel & _).
  apply estimate_channel_Ok in Hchannel as (d0 & _ & Hprep & _).
  eapply prepare_control_metadata; [exact Hprep|].
  rewrite <-Hchs. by apply enum_elem.
Qed.

Lemma two_distinct_controls self :
  2 ≤ size (dom (controls self)) →
  ∃ a b : channel, a ∈ dom (controls self) ∧ b ∈ dom (controls self) ∧ a ≠ b.
Proof.
  rewrite <-(length_enum controls_iter). intros Hsize.
  pose proof (enum_NoDup controls_iter (dom (controls self))) as Hnd.
  pose proof (enum_elem controls_iter (dom (controls self))) as Helem.
  destruct (controls_iter (dom (controls self))) as [|a [|b chs]];
    [simpl in Hsize; lia..|].
  exists a, b. split_and!.
  - apply Helem. by left.
  - apply Helem. right. by left.
  - intros ->. apply NoDup_cons in Hnd as [Hnot _]. apply Hnot. by left.
Qed.

(** The channel set of an estimated table is the set of the controls. *)
Lemma estimate_channel_set w self e self' :
  keys_among_controls self →
  estimate w self (Some e) = (Ok (), self') →
  channel_set (spillover self') = dom (controls self).
Proof.
  intros Hkeys Hest.
  pose proof Hest as (Hsize & _)%estimate_Ok.
  pose proof (estimate_covers_all_pairs_aux w self e self' Hest) as Hdom.
  apply set_eq. intros c. rewrite elem_of_channel_set. split.
  - intros (t & [Hold|(? & _)]%Hdom); [|done]. by destruct (Hkeys _ Hold).
  - intros Hc. destruct (two_distinct_controls self Hsize) as (a & b & Ha & Hb & Hab).
    destruct (decide (c = a)) as [->|Hca].
    + exists b. apply Hdom. right. simpl. split_and!; congruence.
    + exists a. apply Hdom. right. simpl. split_and!; congruence.
Qed.

(** A table that only [estimate] has written, estimated with success for
    an experiment that has the control channels as columns, passes every
    check of [apply] for that experiment and gives a mixing matrix: the
    table names every pair of its channels in both directions, and
    [estimate] has found a metadata dict for each channel.  [apply] then
    returns when [np.linalg.pinv] returns for that matrix, and ends with
    its exception otherwise; it raises neither [CytoflowOpError] nor
    [KeyError]. *)
Theorem estimate_then_apply w self e self' :
  keys_among_controls self →
  estimate w self (Some e) = (Ok (), self') →
  dom (controls self) ⊆ columns (data e) →
  ∃ M, mixing_matrix (spillover self') (channels_of (spillover self')) = Ok M ∧
       match np_pinv M with
       | Some _ => is_Ok (apply self' (Some e))
       | None => apply self' (Some e) = PyFail (NumpyError "linalg.pinv")
       end.
Proof.
  intros Hkeys Hest Hcols.
  pose proof Hest as (Hsize & _)%estimate_Ok.
  pose proof (estimate_covers_all_pairs_aux w self e self' Hest) as Hdom.
  pose proof (estimate_channel_set w self e self' Hkeys Hest) as Hset.
  assert (∀ f t, (f, t) ∈ dom (spillover self') →
            f ∈ dom (controls self) ∧ t ∈ dom (controls self) ∧ f ≠ t) as Hpairs.
  { intros f t [Hold|?]%Hdom; [|done]. by destruct (Hkeys _ Hold) as (? & ? & ?). }
  assert (validate (spillover self') e = Ok ()) as Hv.
  { apply validate_Ok. split.
    + destruct (two_distinct_controls self Hsize) as (a & b & Ha & Hb & Hab).
      intros Hempty. assert ((a, b) ∈ dom (spillover self')) as Hin.
      { apply Hdom. by right. }
      rewrite Hempty, dom_empty_L in Hin. by apply elem_of_empty in Hin.
    + intros f t Hk. destruct (Hpairs f t Hk) as (Hf & Ht & Hne). split_and!.
      * by apply Hcols.
      * by apply Hcols.
      * apply Hdom. right. simpl. split_and!; congruence. }
  assert (complete (spillover self')) as Hcomplete.
  { intros y Hy x Hx Hne. rewrite Hset in Hy, Hx. apply Hdom. right. simpl.
    split_and!; congruence. }
  assert (has_metadata (spillover self') e) as Hmeta.
  { intros c Hc. rewrite Hset in Hc. by eapply estimate_Ok_metadata. }
  destruct (complete_mixing_matrix _ Hcomplete) as [M HM].
  exists M. split; [done|].
  destruct (np_pinv M) as [P|] eqn:HP; [|by apply apply_pinv_fails with M].
  destruct (apply_succeeds_with self' e M P Hv Hcomplete Hmeta HM HP) as (e' & He' & _).
  by exists e'.
Qed.

(** *** Which coefficients are those of the two trims *)

Lemma fit_spec (from_channel to_channel : channel) d d2 v :
  fit from_channel to_channel d = Ok (d2, v) →
  (d2 ← two_step_trim from_channel to_channel d;
   xs ← get_column d2 from_channel;
   ys ← get_column d2 to_channel;
   match np_polyfit1 xs ys with
   | Some lr => Ok lr.1
   | None => PyFail (NumpyError "polyfit")
   end) = Ok v.
Proof.
  rewrite fit_two_step_trim.
  destruct (two_step_trim from_channel to_channel d) as [d2'| |]; [|done..]. simpl.
  destruct (get_column d2' from_channel); [|done..]. simpl.
  destruct (get_column d2' to_channel); [|done..]. simpl.
  destruct (np_polyfit1 _ _); [|done]. by intros [= _ ->].
Qed.

Lemma fit_loop_skip (from_channel : channel) (ts : list channel)
    (st : @DataFrame F * gmap (channel * channel) F) :
  (∀ x, x ∈ ts → x = from_channel) → loop (fit_step from_channel) ts st = (Ok (), st).
Proof.
  induction ts as [|t ts IH]; intros Hall; [done|]. simpl.
  unfold fit_step at 1. rewrite decide_True by (symmetry; apply Hall; by left).
  apply IH. intros x Hx. apply Hall. by right.
Qed.

(** The first target channel fitted for a source channel gets the slope
    of the two trims of the prepared control. *)
Lemma estimate_loop_first_target w self e (chs cs pre post : list channel)
    (from_channel to_channel : channel) sp sp' :
  loop (estimate_channel w self e chs) cs sp = (Ok (), sp') →
  NoDup cs → NoDup chs → from_channel ∈ cs →
  chs = pre ++ to_channel :: post → (∀ x, x ∈ pre → x = from_channel) →
  from_channel ≠ to_channel →
  ∃ d0 d2 v, prepare_control w self e chs from_channel = Ok d0 ∧
             fit from_channel to_channel d0 = Ok (d2, v) ∧
             sp' !! (from_channel, to_channel) = Some v.
Proof.
  intros Hloop Hcs Hchs Hf Hsplit Hpre Hne.
  apply list_elem_of_split in Hf as (pf & qf & ->).
  apply loop_app_Ok in Hloop as (sp1 & _ & Hloop).
  apply loop_cons_Ok in Hloop as (sp2 & Hchannel & Hrest).
  apply estimate_channel_Ok in Hchannel as (d0 & st & Hprep & Hinner & ->).
  assert (sp' !! (from_channel, to_channel) = st.2 !! (from_channel, to_channel)) as ->.
  { pose proof (estimate_loop_lookup w self e chs qf st.2 (from_channel, to_channel))
      as Hlookup.
    rewrite Hrest in Hlookup. apply Hlookup. intros c t Hc _ [= <- <-].
    apply NoDup_app in Hcs as (_ & _ & [Hnot _]%NoDup_cons). done. }
  rewrite Hsplit in Hinner.
  apply loop_app_Ok in Hinner as (st1 & Hskip & Hinner).
  rewrite (fit_loop_skip from_channel pre (d0, sp1) Hpre) in Hskip.
  injection Hskip as <-.
  apply loop_cons_Ok in Hinner as (st2 & Hstep & Hpost).
  apply fit_step_Ok in Hstep as (_ & v & Hfit & Hst2); [|done].
  exists d0, st2.1, v. split; [done|]. split; [done|].
  pose proof (fit_loop_lookup from_channel post st2 (from_channel, to_channel)) as Hlookup.
  rewrite Hpost in Hlookup. simpl in Hlookup. rewrite Hlookup.
  - by rewrite Hst2, lookup_insert_eq.
  - intros t Ht [= <-]. rewrite Hsplit in Hchs.
    apply NoDup_app in Hchs as (_ & _ & [Hnot _]%NoDup_cons). done.
Qed.

Lemma estimate_first_target_aux w self e self' (pre post : list channel)
    (from_channel to_channel : channel) :
  estimate w self (Some e) = (Ok (), self') →
  controls_iter (dom (controls self)) = pre ++ to_channel :: post →
  (∀ x, x ∈ pre → x = from_channel) →
  from_channel ∈ dom (controls self) → from_channel ≠ to_channel →
  ∃ v, spec_coefficient w self e from_channel to_channel = Ok v ∧
       spillover self' !! (from_channel, to_channel) = Some v.
Proof.
  intros (_ & _ & _ & Hloop)%estimate_Ok Hsplit Hpre Hf Hne.
  destruct (estimate_loop_first_target w self e _ _ pre post from_channel to_channel
              _ _ Hloop) as (d0 & d2 & v & Hprep & Hfit & Hv);
    try done; try apply enum_NoDup; [by apply enum_elem|].
  exists v. split; [|done]. unfold spec_coefficient. rewrite Hprep. simpl.
  by apply fit_spec with d2.
Qed.

(** For every source channel, the coefficient of the first other channel
    in the order of the loop is the one the two trims of the prepared
    control give. *)
Theorem estimate_first_target_two_trims w self e self' (pre post : list channel)
    (from_channel to_channel : channel) :
  estimate w self (Some e) = (Ok (), self') →
  controls_iter (dom (controls self)) = pre ++ to_channel :: post →
  (∀ x, x ∈ pre → x = from_channel) →
  from_channel ∈ dom (controls self) → from_channel ≠ to_channel →
  ∃ v, spec_coefficient w self e from_channel to_channel = Ok v ∧
       spillover self' !! (from_channel, to_channel) = Some v.
Proof. apply estimate_first_target_aux. Qed.

(** With exactly two controls every stored coefficient is the slope of the
    line fitted to the rows of the source's prepared control that survive
    the two trims. *)
Theorem estimate_two_controls w self e self' (from_channel to_channel : channel) :
  size (dom (controls self)) = 2 →
  estimate w self (Some e) = (Ok (), self') →
  from_channel ∈ dom (controls self) → to_channel ∈ dom (controls self) →
  from_channel ≠ to_channel →
  ∃ v, spec_coefficient w self e from_channel to_channel = Ok v ∧
       spillover self' !! (from_channel, to_channel) = Some v.
Proof.
  intros Hsize Hest Hf Ht Hne.
  rewrite <-(length_enum controls_iter) in Hsize.
  pose proof (enum_elem controls_iter (dom (controls self))) as Helem.
  destruct (controls_iter (dom (controls self))) as [|a [|b [|? ?]]] eqn:Hchs;
    try discriminate Hsize.
  apply Helem in Hf, Ht.
  apply elem_of_cons in Hf as [->|Hf], Ht as [->|Ht]; try done;
    try apply list_elem_of_singleton in Hf; try apply list_elem_of_singleton in Ht;
    subst; try done.
  - apply (estimate_first_target_aux w self e self' [a] [] a b Hest Hchs);
      [by intros x ->%list_elem_of_singleton| |done].
    apply Helem. by left.
  - apply (estimate_first_target_aux w self e self' [] [b] b a Hest Hchs);
      [by intros x ?%elem_of_nil| |done].
    apply Helem. right. by left.
Qed.

End MoreEstimateFacts.

(** ** The diagnostic view *)

Section DiagnosticFacts.
Context {F : Type} `{!Numeric F} `{!PyOrder} `{!Plotting F}.
Implicit Types (e : @Experiment F) (w : @World F) (self : @BleedthroughLinearOp F).

Lemma list_to_set_enum `{Countable K} (it : enumeration K) (X : gset K) :
  list_to_set (it X) = X.
Proof. apply set_eq. intros x. by rewrite elem_of_list_to_set, enum_elem. Qed.

Lemma estimate_controls w self (experiment : option (@Experiment F)) :
  controls (estimate w self experiment).2 = controls self.
Proof.
  unfold estimate. destruct experiment as [e|]; [|done].
  case_decide; [done|]. destruct (for_each _ _) as [[]| |]; [|done..].
  by destruct (loop _ _ _).
Qed.

Lemma estimate_foreign_lookup w self (experiment : option (@Experiment F))
    (k : channel * channel) :
  ¬ (k.1 ∈ dom (controls self) ∧ k.2 ∈ dom (controls self)) →
  spillover (estimate w self experiment).2 !! k = spillover self !! k.
Proof.
  intros Hforeign. unfold estimate. destruct experiment as [e|]; [|done].
  case_decide; [done|]. destruct (for_each _ _) as [[]| |]; [|done..].
  pose proof (estimate_loop_lookup w self e (controls_iter (dom (controls self)))
                (controls_iter (dom (controls self))) (spillover self) k) as Hloop.
  destruct (loop _ _ _) as [o sp]. simpl in *. apply Hloop.
  intros c t Hc%enum_elem Ht%enum_elem ->. by apply Hforeign.
Qed.

(** After a successful [estimate] on a table that only [estimate] has
    written, [default_view] returns the diagnostic of the operation. *)
Theorem default_view_after_estimate w self e self' :
  keys_among_controls self →
  estimate w self (Some e) = (Ok (), self') →
  default_view self' = Some {| view_name := ""; op := self' |}.
Proof.
  intros Hkeys Hest. unfold default_view, channels_of.
  rewrite list_to_set_enum, (estimate_channel_set w self e self' Hkeys Hest).
  pose proof (estimate_controls w self (Some e)) as Hc. rewrite Hest in Hc.
  simpl in Hc. rewrite Hc. by rewrite decide_False by (by intros ?).
Qed.

(** An entry left in the table for a source channel that has no control
    makes [default_view] fail, also after [estimate] has run: [estimate]
    does not remove it. *)
Theorem default_view_stale_entry w self (experiment : option (@Experiment F))
    (from_channel to_channel : channel) :
  (from_channel, to_channel) ∈ dom (spillover self) →
  from_channel ∉ dom (controls self) →
  default_view self = None ∧ default_view (estimate w self experiment).2 = None.
Proof.
  intros Hk Hf.
  assert (∀ self1 : @BleedthroughLinearOp F,
            controls self1 = controls self →
            (from_channel, to_channel) ∈ dom (spillover self1) →
            default_view self1 = None) as Hfail.
  { intros self1 Hc Hk1. unfold default_view, channels_of.
    rewrite list_to_set_enum, Hc. apply decide_True. intros Heq.
    apply Hf. rewrite Heq. apply elem_of_channel_set. by exists to_channel. }
  split; [by apply Hfail|]. apply Hfail; [apply estimate_controls|].
  apply elem_of_dom. rewrite estimate_foreign_lookup; [by apply elem_of_dom|].
  simpl. by intros [? _].
Qed.

(** *** The grid of subplots *)

Lemma elem_of_enumerate {A} (l : list A) (i : nat) (x : A) :
  (i, x) ∈ enumerate l ↔ l !! i = Some x.
Proof.
  unfold enumerate. rewrite list_elem_of_lookup. split.
  - intros [k Hk]. rewrite list_lookup_imap in Hk.
    destruct (l !! k) eqn:Hl; simpl in Hk; [|done]. by injection Hk as <- <-.
  - intros Hl. exists i. by rewrite list_lookup_imap, Hl.
Qed.

Lemma elem_of_plot_pairs (chs : list channel) (i j : nat) (f t : channel) :
  ((i, f), (j, t)) ∈ plot_pairs chs ↔
  chs !! i = Some f ∧ chs !! j = Some t ∧ i ≠ j.
Proof.
  unfold plot_pairs. rewrite list_elem_of_bind. split.
  - intros ([i' f'] & Hin & Hf%elem_of_enumerate).
    apply list_elem_of_bind in Hin as ([j' t'] & Hin & Ht%elem_of_enumerate).
    simpl in Hin. case_decide; [by apply elem_of_nil in Hin|].
    apply list_elem_of_singleton in Hin. by simplify_eq.
  - intros (Hf & Ht & Hne). exists (i, f). split; [|by apply elem_of_enumerate].
    apply list_elem_of_bind. exists (j, t). split; [|by apply elem_of_enumerate].
    simpl. rewrite decide_False by done. by apply list_elem_of_singleton.
Qed.

Lemma plot_panel_Ok parse_tube (self : @BleedthroughLinearDiagnostic F) e (n i j : nat)
    (f t : channel) (p : @Panel F) :
  plot_panel parse_tube self e n ((i, f), (j, t)) = Ok p →
  position p = i + j * n + 1 ∧ xlabel p = f ∧ ylabel p = t ∧
  is_Some (controls (op self) !! f) ∧
  ∃ slope, spillover (op self) !! (f, t) = Some slope ∧
           line p = [((xlim p).1, fmul (xlim p).1 slope);
                     ((xlim p).2, fmul (xlim p).2 slope)].
Proof.
  unfold plot_panel, controls_get.
  destruct (controls (op self) !! f) as [file|]; [|done]. simpl.
  destruct (parse_tube file e) as [tube| |]; [|done..]. simpl.
  destruct (get_column tube f) as [xcol| |]; [|done..]. simpl.
  destruct (get_column tube t) as [ycol| |]; [|done..]. simpl.
  destruct (np_percentile_5_95 xcol) as [xstart xstop] eqn:Hx.
  unfold spill_get. destruct (spillover (op self) !! (f, t)) as [slope|]; [|done]. simpl.
  intros [= <-]. simpl. split_and!; try done. by exists slope.
Qed.

(** Every subplot of a successful [plot] belongs to an ordered pair of
    distinct channels of the table: the source on the x axis, the target
    on the y axis.  Its index lies inside the n x n grid, in the column of
    the source and the row of the target, so never on the diagonal; and
    its line goes through the origin with the stored coefficient as slope,
    between the two ends of the x range.  Every such pair has a subplot. *)
Theorem plot_grid parse_tube (self : @BleedthroughLinearDiagnostic F) e
    (panels : list (@Panel F)) :
  plot parse_tube self (Some e) = Ok panels →
  let chs := channels_of (spillover (op self)) in
  let n := length chs in
  Forall (λ p, ∃ i j,
            i ≠ j ∧ chs !! i = Some (xlabel p) ∧ chs !! j = Some (ylabel p) ∧
            position p = i + j * n + 1 ∧ 1 ≤ position p ≤ n * n ∧
            (position p - 1) `mod` n = i ∧ (position p - 1) `div` n = j ∧
            ∃ slope, spillover (op self) !! (xlabel p, ylabel p) = Some slope ∧
                     line p = [((xlim p).1, fmul (xlim p).1 slope);
                               ((xlim p).2, fmul (xlim p).2 slope)]) panels ∧
  ∀ i j f t, i ≠ j → chs !! i = Some f → chs !! j = Some t →
    ∃ p, p ∈ panels ∧ xlabel p = f ∧ ylabel p = t.
Proof.
  intros Hpanels chs n. unfold plot in Hpanels. apply mapM_Ok in Hpanels.
  fold chs n in Hpanels. split.
  - apply list.Forall_forall. intros p [k Hk]%list_elem_of_lookup.
    destruct (Forall2_lookup_r _ _ _ _ _ Hpanels Hk) as ([[i f] [j t]] & Hpair & Hp).
    apply list_elem_of_lookup_2, elem_of_plot_pairs in Hpair as (Hf & Ht & Hne).
    apply plot_panel_Ok in Hp as (Hpos & <- & <- & _ & Hline).
    fold chs in Hf, Ht. fold n in Hpos.
    assert (i < n) as Hi by (by eapply lookup_lt_Some).
    assert (j < n) as Hj by (by eapply lookup_lt_Some).
    exists i, j. split_and!; try done.
    + lia.
    + rewrite Hpos. nia.
    + rewrite Hpos. replace (i + j * n + 1 - 1) with (i + j * n) by lia.
      rewrite Nat.Div0.mod_add. by apply Nat.mod_small.
    + rewrite Hpos. replace (i + j * n + 1 - 1) with (i + j * n) by lia.
      rewrite Nat.div_add by lia. rewrite Nat.div_small by done. done.
  - intros i j f t Hne Hf Ht.
    assert (((i, f), (j, t)) ∈ plot_pairs chs) as [k Hk]%list_elem_of_lookup
      by by apply elem_of_plot_pairs.
    destruct (Forall2_lookup_l _ _ _ _ _ Hpanels Hk) as (p & Hp & Hpanel).
    apply plot_panel_Ok in Hpanel as (_ & Hx & Hy & _).
    exists p. split; [by eapply list_elem_of_lookup_2|done].
Qed.

(** [plot] looks up the control of every source channel it draws: when
    the table has two channels or more and one of them has no control,
    [plot] does not return.  [default_view] checks this; [plot] does not. *)
Theorem plot_needs_every_control parse_tube (self : @BleedthroughLinearDiagnostic F) e
    (c : channel) :
  c ∈ channel_set (spillover (op self)) → c ∉ dom (controls (op self)) →
  2 ≤ size (channel_set (spillover (op self))) →
  ¬ is_Ok (plot parse_tube self (Some e)).
Proof.
  intros Hc Hnot Hsize [panels Hpanels%mapM_Ok].
  set (chs := channels_of (spillover (op self))) in *.
  assert (c ∈ chs) as [i Hi]%list_elem_of_lookup by by apply elem_of_channels_of.
  assert (∃ j t, j ≠ i ∧ chs !! j = Some t) as (j & t & Hne & Hj).
  { unfold chs, channels_of in *. rewrite <-(length_enum set_iter) in Hsize.
    destruct (set_iter (channel_set (spillover (op self)))) as [|a [|b l]];
      [simpl in Hsize; lia..|].
    destruct i as [|i]; [by exists 1, b|by exists 0, a]. }
  assert (((i, c), (j, t)) ∈ plot_pairs chs) as [k Hk]%list_elem_of_lookup.
  { apply elem_of_plot_pairs. split_and!; [done|done|congruence]. }
  destruct (Forall2_lookup_l _ _ _ _ _ Hpanels Hk) as (p & _ & Hpanel).
  apply plot_panel_Ok in Hpanel as (_ & _ & _ & Hcontrol & _).
  by apply Hnot, elem_of_dom.
Qed.

End DiagnosticFacts.

(** ** Operation handlers: the sorted names *)

Section StringOrder.

Lemma N_of_ascii_inj (x y : Ascii.ascii) :
  Ascii.N_of_ascii x = Ascii.N_of_ascii y → x = y.
Proof.
  intros Heq. rewrite <-(Ascii.ascii_N_embedding x), <-(Ascii.ascii_N_embedding y).
  by rewrite Heq.
Qed.

Lemma str_le_cons (x y : Ascii.ascii) (a b : string) :
  str_le (String x a) (String y b) ↔
  (Ascii.N_of_ascii x < Ascii.N_of_ascii y)%N ∨ (x = y ∧ str_le a b).
Proof.
  unfold str_le, String.leb. simpl. unfold Ascii.compare.
  destruct (N.compare_spec (Ascii.N_of_ascii x) (Ascii.N_of_ascii y)) as [Heq|Hlt|Hgt].
  - apply N_of_ascii_inj in Heq. subst y. split; [by right|].
    intros [Hlt|[_ ?]]; [|done]. by apply N.lt_irrefl in Hlt.
  - split; [by left|done].
  - split; [done|]. intros [Hlt|[-> _]].
    + exfalso. by apply (N.lt_asymm _ _ Hgt).
    + by apply N.lt_irrefl in Hgt.
Qed.

Global Instance str_le_total : Total str_le.
Proof. intros a b. apply String.leb_total. Qed.

Global Instance str_le_antisymm : AntiSymm (=) str_le.
Proof. intros a b. apply String.leb_antisym. Qed.

Global Instance str_le_trans : Transitive str_le.
Proof.
  intros a. induction a as [|x a IH]; intros [|y b] [|z c] Hab Hbc; try done.
  apply str_le_cons in Hab, Hbc. apply str_le_cons.
  destruct Hab as [Hxy|[-> Hab]], Hbc as [Hyz|[-> Hbc]].
  - left. by etrans.
  - by left.
  - by left.
  - right. split; [done|]. by eapply IH.
Qed.

Lemma str_le_refl (a : string) : str_le a a.
Proof. by destruct (total str_le a a). Qed.

Global Instance pair_le_total : Total pair_le.
Proof.
  intros [a1 a2] [b1 b2]. unfold pair_le. cbn [fst snd].
  destruct (decide (a1 = b1)) as [->|Hne].
  - rewrite decide_True by done. apply (total str_le).
  - rewrite (decide_False (P := b1 = a1)) by congruence. apply (total str_le).
Qed.

Global Instance pair_le_antisymm : AntiSymm (=) pair_le.
Proof.
  intros [a1 a2] [b1 b2]. unfold pair_le. cbn [fst snd].
  destruct (decide (a1 = b1)) as [->|Hne].
  - rewrite decide_True by done. intros H1 H2. f_equal. by apply (anti_symm str_le).
  - rewrite (decide_False (P := b1 = a1)) by congruence. intros H1 H2.
    exfalso. apply Hne. by apply (anti_symm str_le).
Qed.

Global Instance pair_le_trans : Transitive pair_le.
Proof.
  intros [a1 a2] [b1 b2] [c1 c2]. unfold pair_le. cbn [fst snd].
  destruct (decide (a1 = b1)) as [->|Hab], (decide (b1 = c1)) as [->|Hbc].
  - apply transitivity.
  - by intros _ ?.
  - rewrite decide_False by done. by intros ? _.
  - intros H1 H2. destruct (decide (a1 = c1)) as [->|Hac].
    + exfalso. apply Hab. by apply (anti_symm str_le).
    + by etrans.
Qed.

End StringOrder.

Section HandlerFacts.
Context {V S : Type}.

(** Sorting with a total order gives the one sorted list of the keys,
    whatever the order in which the dict enumerated them. *)
Lemma sorted_keys_spec `{Countable K} (R : relation K) `{!∀ x y, Decision (R x y)}
    `{!Total R, !Transitive R, !AntiSymm (=) R} (it it' : enumeration K) (X : gset K) :
  StronglySorted R (merge_sort R (it X)) ∧ NoDup (merge_sort R (it X)) ∧
  (∀ x, x ∈ merge_sort R (it X) ↔ x ∈ X) ∧
  merge_sort R (it' X) = merge_sort R (it X).
Proof.
  split_and!.
  - by apply StronglySorted_merge_sort.
  - rewrite merge_sort_Permutation. apply enum_NoDup.
  - intros x. by rewrite merge_sort_Permutation, enum_elem.
  - apply (StronglySorted_unique R); [by apply StronglySorted_merge_sort..|].
    rewrite !merge_sort_Permutation. apply NoDup_Permutation; [apply enum_NoDup..|].
    intros x. by rewrite !enum_elem.
Qed.

(** [_get_conditions_names] returns the names of the conditions of the
    context, each once, in ascending order; the list is empty without a
    context, and it does not depend on the order in which the dict
    enumerates its keys. *)
Theorem get_conditions_names_sorted (it it' : enumeration string)
    (context : option (@WorkflowItem V S)) :
  StronglySorted str_le (_get_conditions_names it context) ∧
  NoDup (_get_conditions_names it context) ∧
  (∀ x, x ∈ _get_conditions_names it context ↔
        ∃ wi, context = Some wi ∧ x ∈ dom (conditions wi)) ∧
  _get_conditions_names it' context = _get_conditions_names it context.
Proof.
  destruct context as [wi|]; simpl.
  - case_decide as Hne.
    + destruct (sorted_keys_spec str_le it it' (dom (conditions wi)))
        as (Hsorted & Hnd & Helem & Heq).
      unfold sorted_condition_keys. split_and!; try done.
      intros x. rewrite Helem. split; [by exists wi|]. by intros (? & [= <-] & ?).
    + split; [constructor|]. split; [constructor|]. split; [|done].
      intros x. split; [by intros ?%elem_of_nil|].
      intros (? & [= <-] & Hx). rewrite Hne, dom_empty_L in Hx.
      by apply elem_of_empty in Hx.
  - split; [constructor|]. split; [constructor|]. split; [|done].
    intros x. split; [by intros ?%elem_of_nil|]. by intros (? & ? & _).
Qed.

(** [_get_statistics_names] returns the keys of the statistics of the
    context, pairs of strings, each once, in ascending lexicographic
    order, whatever the order in which the dict enumerates them. *)
Theorem get_statistics_names_sorted (it it' : enumeration (string * string))
    (context : option (@WorkflowItem V S)) :
  StronglySorted pair_le (_get_statistics_names it context) ∧
  NoDup (_get_statistics_names it context) ∧
  (∀ x, x ∈ _get_statistics_names it context ↔
        ∃ wi, context = Some wi ∧ x ∈ dom (statistics wi)) ∧
  _get_statistics_names it' context = _get_statistics_names it context.
Proof.
  destruct context as [wi|]; simpl.
  - case_decide as Hne.
    + destruct (sorted_keys_spec pair_le it it' (dom (statistics wi)))
        as (Hsorted & Hnd & Helem & Heq).
      unfold sorted_statistic_keys. split_and!; try done.
      intros x. rewrite Helem. split; [by exists wi|]. by intros (? & [= <-] & ?).
    + split; [constructor|]. split; [constructor|]. split; [|done].
      intros x. split; [by intros ?%elem_of_nil|].
      intros (? & [= <-] & Hx). rewrite Hne, dom_empty_L in Hx.
      by apply elem_of_empty in Hx.
  - split; [constructor|]. split; [constructor|]. split; [|done].
    intros x. split; [by intros ?%elem_of_nil|]. by intros (? & ? & _).
Qed.

End HandlerFacts.

(** ** Help text *)

Section HelpFacts.
Implicit Types (w : HelpFiles) (mro : list string).

Lemma find_help_file_first w (pre post : list string) (m : string) :
  (∀ x, x ∈ pre → path_exists w (help_file_of w x) = false) →
  path_exists w (help_file_of w m) = true →
  find_help_file w (pre ++ m :: post) = Some (help_file_of w m).
Proof.
  intros Hpre Hm. induction pre as [|x pre IH]; simpl.
  - fold (help_file_of w m). by rewrite Hm.
  - fold (help_file_of w x). rewrite (Hpre x) by (by left).
    apply IH. intros y Hy. apply Hpre. by right.
Qed.

Lemma find_help_file_none w mro :
  (∀ x, x ∈ mro → path_exists w (help_file_of w x) = false) →
  find_help_file w mro = None.
Proof.
  induction mro as [|x mro IH]; intros Hall; simpl; [done|].
  fold (help_file_of w x). rewrite (Hall x) by (by left).
  apply IH. intros y Hy. apply Hall. by right.
Qed.

(** With an empty cache [get_help] reads the help file of the first
    class in the method resolution order that has one, whatever files the
    later classes have, and caches the text; if reading fails the
    exception goes to the caller and the cache stays empty. *)
Theorem get_help_first_match w (pre post : list string) (m : string) :
  (∀ x, x ∈ pre → path_exists w (help_file_of w x) = false) →
  path_exists w (help_file_of w m) = true →
  get_help w (pre ++ m :: post) ""
  = match read_text w (help_file_of w m) with
    | Ok text => (Ok text, text)
    | failure => (failure, "")
    end.
Proof.
  intros Hpre Hm. unfold get_help. rewrite decide_True by done.
  by rewrite (find_help_file_first w pre post m Hpre Hm).
Qed.

(** When no class of the method resolution order has a help file,
    [get_help] ends with the [TypeError] of [open(None)], and the cache
    stays empty. *)
Theorem get_help_no_file w mro :
  (∀ x, x ∈ mro → path_exists w (help_file_of w x) = false) →
  get_help w mro ""
  = (PyFail (TypeError "expected str, bytes or os.PathLike object, not NoneType"), "").
Proof.
  intros Hall. unfold get_help. rewrite decide_True by done.
  by rewrite (find_help_file_none w mro Hall).
Qed.

(** Once [get_help] has returned a text that is not empty, every later
    call returns that text, whatever the files and the classes are then.
    An empty help file is not cached: the cache stays empty. *)
Theorem get_help_cached w mro (cached text cached' : string) :
  get_help w mro cached = (Ok text, cached') →
  cached' = text ∧
  (text ≠ "" → ∀ w' mro', get_help w' mro' cached' = (Ok text, cached')).
Proof.
  unfold get_help. case_decide as Hc.
  - destruct (find_help_file w mro) as [h|]; [|done].
    destruct (read_text w h) as [t| |]; [|done..].
    intros [= -> ->]. split; [done|]. intros Hne w' mro'.
    by rewrite decide_False by done.
  - intros [= <- <-]. split; [done|]. intros _ w' mro'.
    by rewrite decide_False by done.
Qed.

End HelpFacts.

(** ** The further properties at concrete inputs *)

Section MoreWitnesses.
Import Exact Examples MoreExamples.

Lemma apply_preserves_frame_witness :
  apply op_AB (Some exp_ABW) = Ok corrected_ABW ∧
  columns (data corrected_ABW) = columns (data exp_ABW) ∧
  length (rows (data corrected_ABW)) = length (rows (data exp_ABW)) ∧
  (frame_wf (data exp_ABW) → frame_wf (data corrected_ABW)).
Proof.
  assert (apply op_AB (Some exp_ABW) = Ok corrected_ABW) as Happly by by_computation.
  split; [exact Happly|].
  exact (apply_preserves_frame op_AB exp_ABW corrected_ABW Happly).
Defined.

Lemma apply_accepts_its_result_witness :
  apply op_AB (Some exp_ABW) = Ok corrected_ABW ∧
  is_Ok (apply op_AB (Some corrected_ABW)).
Proof.
  assert (apply op_AB (Some exp_ABW) = Ok corrected_ABW) as Happly by by_computation.
  split; [exact Happly|].
  exact (apply_accepts_its_result op_AB exp_ABW corrected_ABW Happly).
Defined.

Lemma estimate_rejects_bad_setup_witness :
  ∃ err, estimate world_no_files op_fresh_AB (Some exp_twelve) = (OpFail err, op_fresh_AB) ∧
         ((err = TooFewChannels ∧ size (dom (controls op_fresh_AB)) < 2) ∨
          ∃ c f, err = ControlFileNotFound f c ∧
                 controls op_fresh_AB !! c = Some f ∧ isfile world_no_files f = false).
Proof.
  apply (estimate_rejects_bad_setup world_no_files op_fresh_AB exp_twelve).
  right. exists "A", "a.fcs". split; by_computation.
Defined.

Lemma estimate_ABC :
  estimate world_twelve op_fresh_ABC (Some exp_twelve) = (Ok (), op_estimated_ABC).
Proof. by_computation. Qed.

Lemma estimate_AB :
  estimate world_twelve op_fresh_AB (Some exp_twelve) = (Ok (), op_estimated_AB).
Proof. by_computation. Qed.

Lemma estimate_covers_all_pairs_witness :
  estimate world_twelve op_fresh_ABC (Some exp_twelve) = (Ok (), op_estimated_ABC) ∧
  controls op_estimated_ABC = controls op_fresh_ABC ∧
  ∀ from_channel to_channel,
    (from_channel, to_channel) ∈ dom (spillover op_estimated_ABC) ↔
    (from_channel, to_channel) ∈ dom (spillover op_fresh_ABC) ∨
    (from_channel ∈ dom (controls op_fresh_ABC) ∧
     to_channel ∈ dom (controls op_fresh_ABC) ∧ from_channel ≠ to_channel).
Proof.
  split; [exact estimate_ABC|].
  exact (estimate_covers_all_pairs world_twelve op_fresh_ABC exp_twelve op_estimated_ABC
           estimate_ABC).
Defined.

Lemma estimate_then_apply_witness :
  keys_among_controls op_fresh_ABC ∧
  dom (controls op_fresh_ABC) ⊆ columns (data exp_twelve) ∧
  is_Ok (apply op_estimated_ABC (Some exp_twelve)).
Proof.
  assert (keys_among_controls op_fresh_ABC) as Hkeys by by_decision.
  assert (dom (controls op_fresh_ABC) ⊆ columns (data exp_twelve)) as Hcols by by_decision.
  split; [exact Hkeys|]. split; [exact Hcols|].
  destruct (estimate_then_apply world_twelve op_fresh_ABC exp_twelve op_estimated_ABC
              Hkeys estimate_ABC Hcols) as (M & _ & Hcase).
  destruct (np_pinv M) as [a_inv|] eqn:Hpinv; [exact Hcase|].
  exfalso. discriminate Hpinv.
Defined.

Lemma estimate_first_target_two_trims_witness :
  ∃ v, spec_coefficient world_twelve op_fresh_ABC exp_twelve "C" "A" = Ok v ∧
       spillover op_estimated_ABC !! ("C", "A") = Some v.
Proof.
  apply (estimate_first_target_two_trims world_twelve op_fresh_ABC exp_twelve
           op_estimated_ABC ["C"] ["B"] "C" "A" estimate_ABC).
  - by_computation.
  - intros x Hx. apply list_elem_of_singleton in Hx. exact Hx.
  - by_decision.
  - discriminate.
Defined.

Lemma estimate_two_controls_witness :
  ∃ v, spec_coefficient world_twelve op_fresh_AB exp_twelve "B" "A" = Ok v ∧
       spillover op_estimated_AB !! ("B", "A") = Some v.
Proof.
  apply (estimate_two_controls world_twelve op_fresh_AB exp_twelve op_estimated_AB
           "B" "A").
  - by_computation.
  - exact estimate_AB.
  - by_decision.
  - by_decision.
  - discriminate.
Defined.

Lemma default_view_after_estimate_witness :
  default_view op_estimated_ABC = Some {| view_name := ""; op := op_estimated_ABC |}.
Proof.
  apply (default_view_after_estimate world_twelve op_fresh_ABC exp_twelve).
  - by_decision.
  - exact estimate_ABC.
Defined.

Lemma default_view_stale_entry_witness :
  (estimate world_twelve op_controls_ABC (Some exp_twelve)).1 = Ok () ∧
  default_view op_controls_ABC = None ∧
  default_view (estimate world_twelve op_controls_ABC (Some exp_twelve)).2 = None.
Proof.
  split; [by_computation|].
  apply (default_view_stale_entry world_twelve op_controls_ABC (Some exp_twelve) "X" "Y").
  - by_decision.
  - apply (bool_decide_eq_false_1 ("X" ∈ dom (controls op_controls_ABC))). by_computation.
Defined.

Lemma plot_ABC : plot parse_twelve view_ABC (Some exp_twelve) = Ok panels_ABC.
Proof. by_computation. Qed.

Lemma plot_grid_witness :
  length panels_ABC = 6 ∧
  ∃ p, p ∈ panels_ABC ∧ xlabel p = "C" ∧ ylabel p = "B".
Proof.
  split; [by_computation|].
  destruct (plot_grid parse_twelve view_ABC exp_twelve panels_ABC plot_ABC)
    as [_ Hall].
  apply (Hall 0 2 "C" "B").
  - discriminate.
  - by_computation.
  - by_computation.
Defined.

Lemma plot_needs_every_control_witness :
  ¬ is_Ok (plot parse_twelve view_AB_no_controls (Some exp_ABW)).
Proof.
  apply (plot_needs_every_control parse_twelve view_AB_no_controls exp_ABW "A").
  - by_decision.
  - apply (bool_decide_eq_false_1 ("A" ∈ dom (controls (op view_AB_no_controls)))).
    by_computation.
  - vm_compute. lia.
Defined.

Lemma get_help_first_match_witness :
  get_help help_files help_mro "" = (Ok "<html>Threshold</html>", "<html>Threshold</html>").
Proof.
  apply (get_help_first_match help_files ["cytoflowgui.op_plugins.threshold"]
           ["traits.has_traits"; "builtins"] "cytoflow.operations.threshold").
  - intros x Hx. apply list_elem_of_singleton in Hx. subst x. by_computation.
  - by_computation.
Defined.

Lemma get_help_no_file_witness :
  get_help help_files ["traits.has_traits"; "builtins"] ""
  = (PyFail (TypeError "expected str, bytes or os.PathLike object, not NoneType"), "").
Proof.
  apply (get_help_no_file help_files ["traits.has_traits"; "builtins"]).
  intros x Hx. apply elem_of_cons in Hx as [->|Hx]; [by_computation|].
  apply list_elem_of_singleton in Hx. subst x. by_computation.
Defined.

Lemma get_help_cached_witness :
  get_help help_files help_mro "" = (Ok "<html>Threshold</html>", "<html>Threshold</html>") ∧
  get_help help_files [] "<html>Threshold</html>"
  = (Ok "<html>Threshold</html>", "<html>Threshold</html>").
Proof.
  assert (get_help help_files help_mro ""
          = (Ok "<html>Threshold</html>", "<html>Threshold</html>")) as Hfirst
    by by_computation.
  split; [exact Hfirst|].
  destruct (get_help_cached help_files help_mro "" "<html>Threshold</html>"
              "<html>Threshold</html>" Hfirst) as [_ Hlater].
  apply Hlater. discriminate.
Defined.

End MoreWitnesses.
